(** * The ledger, prediction markets and withdrawal queue of the TeleSwapX server

    A shallow embedding of the money-handling core of the server
    (ledger, binary prediction markets with settlement, withdrawal limits
    and the admin withdrawal queue), and the properties of it.

    Modelling conventions.
    - A JavaScript number is a value of [num]: [NaN], the two infinities, or a
      finite rational.  The special values are kept because the code branches
      on them ([isFinite], [x || 0], [!x], comparisons that are false on NaN).
      Arithmetic on finite values is exact: rounding of IEEE doubles, overflow
      and the sign of zero are not modelled.  Two finite numbers denote the
      same JavaScript number when the rationals are equal ([JS.same]).
    - The global [Map]s are finite maps, the global arrays are lists, and a
      reference to an object inside an array is its index.
    - [Date.now()] and the answer of the external price provider are
      arguments of the function that reads them.
    - A request handler is a function of the state; request fields are taken
      after [JSON.parse] and the handler's own parsing ([parseFloat],
      [parseInt], [toUpperCase], [String]).  The two [async] handlers are
      also given piece by piece, one piece per stretch of code between two
      [await]s, to follow requests that overlap ([interleaved]). *)

From Stdlib Require Import ZArith QArith Qabs Lqa Lia List Bool.
From Stdlib Require Import HexadecimalString.
From stdpp Require Import base strings gmap list.

Local Open Scope Q_scope.

(** ** JavaScript numbers *)

Inductive num : Type :=
| NaN
| NegInf
| PosInf
| Fin (q : Q).

Module JS.

Definition Qltb (a b : Q) : bool := negb (Qle_bool b a).

Definition zero : num := Fin 0.

(** [-x] *)
Definition neg (x : num) : num :=
  match x with
  | NaN => NaN
  | NegInf => PosInf
  | PosInf => NegInf
  | Fin q => Fin (- q)
  end.

(** [x + y] *)
Definition add (x y : num) : num :=
  match x, y with
  | NaN, _ | _, NaN => NaN
  | PosInf, NegInf | NegInf, PosInf => NaN
  | PosInf, _ | _, PosInf => PosInf
  | NegInf, _ | _, NegInf => NegInf
  | Fin a, Fin b => Fin (a + b)
  end.

(** [x - y] *)
Definition sub (x y : num) : num := add x (neg y).

(** The infinity with the sign of [s * q], or NaN when [q] is zero. *)
Definition inf_times (positive : bool) (q : Q) : num :=
  if Qeq_bool q 0 then NaN
  else if Bool.eqb positive (Qltb 0 q) then PosInf else NegInf.

(** [x * y] *)
Definition mul (x y : num) : num :=
  match x, y with
  | NaN, _ | _, NaN => NaN
  | PosInf, PosInf | NegInf, NegInf => PosInf
  | PosInf, NegInf | NegInf, PosInf => NegInf
  | PosInf, Fin q | Fin q, PosInf => inf_times true q
  | NegInf, Fin q | Fin q, NegInf => inf_times false q
  | Fin a, Fin b => Fin (a * b)
  end.

(** [x / y]; a finite zero divisor counts as [+0]. *)
Definition div (x y : num) : num :=
  match x, y with
  | NaN, _ | _, NaN => NaN
  | (PosInf | NegInf), (PosInf | NegInf) => NaN
  | PosInf, Fin q => if Qltb q 0 then NegInf else PosInf
  | NegInf, Fin q => if Qltb q 0 then PosInf else NegInf
  | Fin _, (PosInf | NegInf) => Fin 0
  | Fin a, Fin b =>
      if Qeq_bool b 0 then inf_times true a else Fin (a / b)
  end.

(** [x < y] *)
Definition lt (x y : num) : bool :=
  match x, y with
  | NaN, _ | _, NaN => false
  | _, NegInf => false
  | NegInf, _ => true
  | PosInf, _ => false
  | Fin _, PosInf => true
  | Fin a, Fin b => Qltb a b
  end.

(** [x > y] *)
Definition gt (x y : num) : bool := lt y x.

(** [x <= y] *)
Definition le (x y : num) : bool :=
  match x, y with
  | NaN, _ | _, NaN => false
  | NegInf, _ => true
  | _, PosInf => true
  | _, NegInf => false
  | PosInf, _ => false
  | Fin a, Fin b => Qle_bool a b
  end.

(** [x === y] *)
Definition eqb (x y : num) : bool :=
  match x, y with
  | NegInf, NegInf | PosInf, PosInf => true
  | Fin a, Fin b => Qeq_bool a b
  | _, _ => false
  end.

(** Truthiness of a number: everything but [0] and [NaN]. *)
Definition truthy (x : num) : bool :=
  match x with
  | NaN => false
  | Fin q => negb (Qeq_bool q 0)
  | _ => true
  end.

(** [x || 0] *)
Definition orZero (x : num) : num := if truthy x then x else zero.

(** [isFinite(x)] *)
Definition isFinite (x : num) : bool :=
  match x with Fin _ => true | _ => false end.

(** [Math.abs(x)] *)
Definition abs (x : num) : num :=
  match x with
  | NaN => NaN
  | NegInf | PosInf => PosInf
  | Fin q => Fin (Qabs q)
  end.

(** [Math.max(x, y)] *)
Definition max (x y : num) : num :=
  match x, y with
  | NaN, _ | _, NaN => NaN
  | _, _ => if lt x y then y else x
  end.

(** The two values are the same JavaScript number (NaN included). *)
Definition same (x y : num) : Prop :=
  match x, y with
  | NaN, NaN | NegInf, NegInf | PosInf, PosInf => True
  | Fin a, Fin b => a == b
  | _, _ => False
  end.

(** A number a validated stake or deposit can be: [x > 0]. *)
Definition positive (x : num) : Prop := lt zero x = true.

End JS.

(** ** The ledger (source: [ledger], [getBal], [credit], [debit]) *)

Record account : Type := { balanceTon : num }.

Inductive error : Type :=
| Invalid_debit_amount      (* 'Invalid debit amount' *)
| Insufficient_balance.     (* 'Insufficient balance' *)

Definition getBal (ledger : gmap string account) (userId : string) : num :=
  match ledger !! userId with
  | Some rec => balanceTon rec
  | None => JS.zero
  end.

(** [credit] has no failure path: it returns the new ledger. *)
Definition credit (userId : string) (ton : num) (ledger : gmap string account)
  : gmap string account :=
  let current := getBal ledger userId in
  let newBalance := JS.add current (JS.orZero ton) in
  <[userId := {| balanceTon := newBalance |}]> ledger.

(** [debit] throws before it writes: the result is the error thrown, if any,
    and the ledger as the call leaves it. *)
Definition debit (userId : string) (ton : num) (ledger : gmap string account)
  : (error + unit) * gmap string account :=
  let amount := JS.orZero ton in
  if JS.le amount JS.zero then (inl Invalid_debit_amount, ledger)
  else
    let current := getBal ledger userId in
    if JS.lt current amount then (inl Insufficient_balance, ledger)
    else
      let newBalance := JS.sub current amount in
      (inr tt, <[userId := {| balanceTon := newBalance |}]> ledger).

(** When a PostgreSQL pool is configured, [credit] and [debit] also call
    [updatePersistentBalance], whose synchronous part stores the same record
    in [ledger] again; the in-memory ledger modelled here is not affected. *)

Definition error_message (e : error) : string :=
  match e with
  | Invalid_debit_amount => "Invalid debit amount"
  | Insufficient_balance => "Insufficient balance"
  end.

(** ** Markets and bets *)

Inductive direction : Type := Above | Below.   (* 'above' | 'below' *)
Inductive status : Type := Open | Settled.     (* 'open' | 'settled' *)

(** The value of [winner] in [settleMarket]: 'draw', 'above' or 'below'. *)
Inductive outcome : Type := Draw | Win (d : direction).

Record pools_t : Type := { above : num; below : num }.

Record bet : Type := {
  b_id : Z;
  b_userId : string;
  b_direction : direction;
  b_stakeTon : num
}.

Record market : Type := {
  m_id : Z;
  m_asset : string;
  m_expiry : Z;
  m_strike : num;
  m_entryCap : num;
  m_pools : pools_t;
  m_bets : list bet;
  m_status : status;
  m_openedAt : Z;
  m_settleCap : option num;       (* absent until settled *)
  m_feeCollected : option num     (* absent until settled *)
}.

Definition direction_eqb (a b : direction) : bool :=
  match a, b with
  | Above, Above | Below, Below => true
  | _, _ => false
  end.

Definition status_eqb (a b : status) : bool :=
  match a, b with
  | Open, Open | Settled, Settled => true
  | _, _ => false
  end.

(** [b.direction === winner] *)
Definition is_winner (winner : outcome) (b : bet) : bool :=
  match winner with
  | Draw => false
  | Win d => direction_eqb (b_direction b) d
  end.

(** [pools[direction]] *)
Definition pool_of (p : pools_t) (d : direction) : num :=
  match d with Above => above p | Below => below p end.

(** [pools[direction] += amount] *)
Definition pool_add (p : pools_t) (d : direction) (amount : num) : pools_t :=
  match d with
  | Above => {| above := JS.add (above p) amount; below := below p |}
  | Below => {| above := above p; below := JS.add (below p) amount |}
  end.

(** [Array.prototype.find] and [findIndex]: the first element that satisfies
    [p], with its index (the reference to the object found). *)
Fixpoint find_ref {A : Type} (p : A -> bool) (l : list A) : option (nat * A) :=
  match l with
  | [] => None
  | x :: r =>
      if p x then Some (0%nat, x)
      else match find_ref p r with
           | Some (i, y) => Some (S i, y)
           | None => None
           end
  end.

(** ** The withdrawal log and queue *)

Record logEntry : Type := { ts : Z; le_amountTon : num }.

Inductive wstatus : Type := Pending | Completed.   (* 'pending' | 'completed' *)

Record withdrawal : Type := {
  w_id : string;
  w_userId : string;
  w_amountTon : num;
  w_feeTon : num;
  w_netTon : num;
  w_to : string;
  w_status : wstatus;
  w_requestedAt : Z;
  w_txHash : option (option string);   (* absent, or [null], or a string *)
  w_completedAt : option Z;
  w_processedAt : option Z
}.

(** ** The state of the server: its global variables *)

Record state : Type := {
  ledger : gmap string account;
  markets : list market;
  nextMarketId : Z;
  nextBetId : Z;
  withdrawalLog : gmap string (list logEntry);
  withdrawQueue : list withdrawal
}.

Definition initial : state := {|
  ledger := ∅;
  markets := [];
  nextMarketId := 1;
  nextBetId := 1;
  withdrawalLog := ∅;
  withdrawQueue := []
|}.

Definition set_ledger (l : gmap string account) (s : state) : state :=
  {| ledger := l; markets := markets s; nextMarketId := nextMarketId s;
     nextBetId := nextBetId s; withdrawalLog := withdrawalLog s;
     withdrawQueue := withdrawQueue s |}.

Definition set_markets (ms : list market) (s : state) : state :=
  {| ledger := ledger s; markets := ms; nextMarketId := nextMarketId s;
     nextBetId := nextBetId s; withdrawalLog := withdrawalLog s;
     withdrawQueue := withdrawQueue s |}.

Definition set_withdrawQueue (q : list withdrawal) (s : state) : state :=
  {| ledger := ledger s; markets := markets s; nextMarketId := nextMarketId s;
     nextBetId := nextBetId s; withdrawalLog := withdrawalLog s;
     withdrawQueue := q |}.

(** ** The price index *)

(** [computeTwapCap]: [provider] is what [computeMarketCap] answers, [None]
    when it throws. *)
Definition computeTwapCap (provider : option num) : num :=
  match provider with
  | Some capTon =>
      if JS.truthy capTon && JS.isFinite capTon then capTon else JS.zero
  | None => JS.zero
  end.

(** ** Market registry and settlement *)

(** The part of [getOrCreateMarket] that runs once [computeTwapCap] has
    answered: the market is built and pushed. *)
Definition create_market (now : Z) (provider : option num)
    (asset : string) (expiry : Z) (s : state) : (nat * market) * state :=
  let entryCap := computeTwapCap provider in
  let market := {|
    m_id := nextMarketId s;
    m_asset := asset;
    m_expiry := expiry;
    m_strike := entryCap;
    m_entryCap := entryCap;
    m_pools := {| above := JS.zero; below := JS.zero |};
    m_bets := [];
    m_status := Open;
    m_openedAt := now;
    m_settleCap := None;
    m_feeCollected := None |} in
  ((length (markets s), market),
   {| ledger := ledger s; markets := markets s ++ [market];
      nextMarketId := (nextMarketId s + 1)%Z; nextBetId := nextBetId s;
      withdrawalLog := withdrawalLog s;
      withdrawQueue := withdrawQueue s |}).

(** [getOrCreateMarket]: returns the market (its index in [markets], the
    reference, and its contents) and the new state. *)
Definition getOrCreateMarket (now : Z) (provider : option num)
    (asset : string) (expiryMinutes : Z) (s : state)
  : (nat * market) * state :=
  let expiry := (now + expiryMinutes * 60 * 1000)%Z in
  match find_ref (fun m => String.eqb (m_asset m) asset
                            && (m_expiry m =? expiry)%Z
                            && status_eqb (m_status m) Open) (markets s) with
  | Some existing => (existing, s)
  | None => create_market now provider asset expiry s
  end.

(** The value of [winner] computed by [settleMarket]. *)
Definition winner_of (strike settleCap : num) : outcome :=
  let eps := Fin (2 # 1000) in
  if JS.eqb strike JS.zero then Draw
  else if JS.lt (JS.div (JS.abs (JS.sub settleCap strike)) strike) eps then Draw
  else if JS.gt settleCap strike then Win Above else Win Below.

(** The loop [for (const b of market.bets) credit(b.userId, b.stakeTon)]. *)
Definition refund_all (bets : list bet) (l : gmap string account)
  : gmap string account :=
  fold_left (fun l b => credit (b_userId b) (b_stakeTon b) l) bets l.

(** The loop crediting [b.stakeTon * perTon] to the bets on the winning side. *)
Definition pay_winners (winner : outcome) (perTon : num) (bets : list bet)
    (l : gmap string account) : gmap string account :=
  fold_left (fun l b => if is_winner winner b
                        then credit (b_userId b) (JS.mul (b_stakeTon b) perTon) l
                        else l) bets l.

(** The part of [settleMarket] that runs once [computeTwapCap] has answered.
    The market object is updated in place, so the function returns its new
    contents together with the new ledger. *)
Definition settle_finish (provider : option num) (m : market)
    (l : gmap string account) : market * gmap string account :=
  let settleCap := computeTwapCap provider in
  let strike := m_strike m in
  let winner := winner_of strike settleCap in
  let A := above (m_pools m) in
  let B := below (m_pools m) in
  let total := JS.add A B in
  let feeRate := Fin (2 # 100) in
  let fee := JS.mul total feeRate in
  let distributable := JS.sub total fee in
  let l' :=
    match winner with
    | Draw => refund_all (m_bets m) l
    | Win d =>
        let winPool := pool_of (m_pools m) d in
        let perTon := if JS.gt winPool JS.zero
                      then JS.div distributable winPool else JS.zero in
        pay_winners winner perTon (m_bets m) l
    end in
  ({| m_id := m_id m; m_asset := m_asset m; m_expiry := m_expiry m;
      m_strike := m_strike m; m_entryCap := m_entryCap m;
      m_pools := m_pools m; m_bets := m_bets m;
      m_status := Settled; m_openedAt := m_openedAt m;
      m_settleCap := Some settleCap; m_feeCollected := Some fee |}, l').

(** [settleMarket]: nothing happens unless the market is open; the provider
    is only queried when it is. *)
Definition settleMarket (provider : option num) (m : market)
    (l : gmap string account) : market * gmap string account :=
  if negb (status_eqb (m_status m) Open) then (m, l)
  else settle_finish provider m l.

(** [market.bets.push(bet); market.pools[direction] += amount] *)
Definition add_bet (b : bet) (m : market) : market := {|
  m_id := m_id m; m_asset := m_asset m; m_expiry := m_expiry m;
  m_strike := m_strike m; m_entryCap := m_entryCap m;
  m_pools := pool_add (m_pools m) (b_direction b) (b_stakeTon b);
  m_bets := m_bets m ++ [b];
  m_status := m_status m; m_openedAt := m_openedAt m;
  m_settleCap := m_settleCap m; m_feeCollected := m_feeCollected m |}.

(** The part of the handler of /api/prediction/open that runs once
    [getOrCreateMarket] has answered with the market [ref]: the bet is built
    and recorded in that market object. *)
Definition place_bet (ref : nat) (userId : string) (d : direction)
    (amount : num) (s : state) : bet * state :=
  let bet := {| b_id := nextBetId s; b_userId := userId;
                b_direction := d; b_stakeTon := amount |} in
  (bet,
   {| ledger := ledger s; markets := alter (add_bet bet) ref (markets s);
      nextMarketId := nextMarketId s;
      nextBetId := (nextBetId s + 1)%Z;
      withdrawalLog := withdrawalLog s;
      withdrawQueue := withdrawQueue s |}).

(** The part of the handler of /api/prediction/settle that runs once
    [computeTwapCap] has answered, on the market object [ref]. *)
Definition settle_finish_at (ref : nat) (provider : option num) (s : state)
  : state :=
  match markets s !! ref with
  | Some market =>
      let '(settled, l) := settle_finish provider market (ledger s) in
      set_markets (<[ref := settled]> (markets s)) (set_ledger l s)
  | None => s
  end.

(** ** Withdrawal usage *)

Record usage : Type := { dailyUsed : num; monthlyUsed : num }.

Definition dayMs : Z := (24 * 60 * 60 * 1000)%Z.
Definition monthMs : Z := (30 * dayMs)%Z.

(** The loop of [getWithdrawUsage] over the user's log entries. *)
Definition usage_loop (now : Z) (logs : list logEntry) : usage :=
  fold_left
    (fun u entry =>
       let diff := (now - ts entry)%Z in
       if (diff <? monthMs)%Z then
         let monthlyUsed' := JS.add (monthlyUsed u) (le_amountTon entry) in
         if (diff <? dayMs)%Z
         then {| dailyUsed := JS.add (dailyUsed u) (le_amountTon entry);
                 monthlyUsed := monthlyUsed' |}
         else {| dailyUsed := dailyUsed u; monthlyUsed := monthlyUsed' |}
       else u)
    logs {| dailyUsed := JS.zero; monthlyUsed := JS.zero |}.

Definition getWithdrawUsage (now : Z) (s : state) (userId : string) : usage :=
  let logs := default [] (withdrawalLog s !! userId) in
  usage_loop now logs.

(** ** Requests and responses *)

(** The parsed JSON body of a request.  A field that is absent is the empty
    string (falsy) or [NaN] (what [Number], [parseFloat] give on
    [undefined]); [expiryMinutes] is [parseInt(..., 10) || 0] and [marketId]
    is [Number(data.marketId)] with [0] standing for every falsy value. *)
Record body : Type := {
  userId : string;
  asset : string;          (* after [toUpperCase] *)
  direction_ : string;     (* after [toLowerCase] *)
  amount : num;            (* [parseFloat(data.amount)] *)
  expiryMinutes : Z;
  marketId : Z;
  amountTon : num;         (* [Number(amountTon)] *)
  to : string;
  secret : string;
  withdrawal_id : string;  (* the field [id] *)
  txHash : string
}.

(** What a handler reads from its environment: the successive values of
    [Date.now()], the answer of the price provider, and the admin secret
    given in the header or the query string. *)
Record env : Type := {
  Date_now : nat -> Z;
  provider_answer : option num;
  header_secret : string
}.

Record limits : Type := { used : num; remaining : num; limit : num }.

Inductive response : Type :=
| R_bet (bet_ : bet) (marketId_ : Z)                      (* 200 *)
| R_market (market_ : market)                             (* 200 *)
| R_balance (balanceTon_ : num)                           (* 200 *)
| R_withdraw (requestId : string) (feeTon netTon : num)
             (daily monthly : limits)                     (* 200 *)
| R_withdrawal (withdrawal_ : withdrawal)                 (* 200 *)
| R_error (message : string)                              (* 400 *)
| R_daily_limit (dailyLimit dailyUsed_ dailyRemaining : num)        (* 400 *)
| R_monthly_limit (monthlyLimit monthlyUsed_ monthlyRemaining : num) (* 400 *)
| R_forbidden (message : string)                          (* 403 *)
| R_not_found (message : string)                          (* 404 *)
| R_unhandled.                                            (* not an API route of the core *)

Definition parse_direction (s : string) : option direction :=
  if String.eqb s "above" then Some Above
  else if String.eqb s "below" then Some Below
  else None.

Definition nonempty (s : string) : bool := negb (String.eqb s "").

(** The hexadecimal digits of [Date.now().toString(16)]. *)
Definition toString16 (n : Z) : string :=
  HexadecimalString.NilZero.string_of_uint (N.to_hex_uint (Z.to_N n)).

(** [withdrawQueue[idx] = entry] for an index in range. *)
Definition set_status (w : withdrawal) (st : wstatus) : withdrawal :=
  {| w_id := w_id w; w_userId := w_userId w; w_amountTon := w_amountTon w;
     w_feeTon := w_feeTon w; w_netTon := w_netTon w; w_to := w_to w;
     w_status := st; w_requestedAt := w_requestedAt w;
     w_txHash := w_txHash w; w_completedAt := w_completedAt w;
     w_processedAt := w_processedAt w |}.

Section Server.

(** Configuration read from the environment when the server starts. *)
Variable WITHDRAW_FEE_RATE : num.
Variable WITHDRAW_LIMIT_DAILY : num.
Variable WITHDRAW_LIMIT_MONTHLY : num.
Variable ALLOWED_PREDICTION_ASSETS : list string.
Variable ADMIN_SECRET : string.

(** POST /api/prediction/open *)
Definition api_prediction_open (e : env) (data : body) (s : state)
  : response * state :=
  let amount := amount data in
  if negb (nonempty (userId data)) then (R_error "userId required", s)
  else if negb (nonempty (asset data))
          || negb (existsb (String.eqb (asset data)) ALLOWED_PREDICTION_ASSETS)
  then (R_error "Invalid asset", s)
  else match parse_direction (direction_ data) with
  | None => (R_error "Invalid direction", s)
  | Some direction =>
    if negb (JS.truthy amount) || JS.le amount JS.zero
    then (R_error "Invalid amount", s)
    else if (expiryMinutes data <=? 0)%Z
    then (R_error "Invalid expiryMinutes", s)
    else match debit (userId data) amount (ledger s) with
    | (inl err, l) => (R_error (error_message err), set_ledger l s)
    | (inr _, l) =>
      let s1 := set_ledger l s in
      let '((ref, market), s2) :=
        getOrCreateMarket (Date_now e 0%nat) (provider_answer e)
                          (asset data) (expiryMinutes data) s1 in
      let '(bet, s3) := place_bet ref (userId data) direction amount s2 in
      (R_bet bet (m_id market), s3)
    end
  end.

(** POST /api/prediction/settle *)
Definition api_prediction_settle (e : env) (data : body) (s : state)
  : response * state :=
  let marketId := marketId data in
  if (marketId =? 0)%Z then (R_error "Invalid or missing marketId", s)
  else match find_ref (fun m => (m_id m =? marketId)%Z) (markets s) with
  | None => (R_error "Market not found", s)
  | Some (ref, market) =>
      if (Date_now e 0%nat <? m_expiry market)%Z
      then (R_error "Market not expired", s)
      else
        let '(settled, l) :=
          settleMarket (provider_answer e) market (ledger s) in
        (R_market settled,
         set_markets (<[ref := settled]> (markets s)) (set_ledger l s))
  end.

(** POST /api/wallet/deposit/webhook *)
Definition api_wallet_deposit_webhook (data : body) (s : state)
  : response * state :=
  let amt := amountTon data in
  if negb (nonempty (userId data)) || negb (JS.truthy amt) || JS.le amt JS.zero
  then (R_error "Invalid deposit", s)
  else
    let l := credit (userId data) amt (ledger s) in
    (R_balance (getBal l (userId data)), set_ledger l s).

(** POST /api/wallet/withdraw *)
Definition api_wallet_withdraw (e : env) (data : body) (s : state)
  : response * state :=
  let amt := amountTon data in
  let userId := userId data in
  let to := to data in
  if negb (nonempty userId) || negb (nonempty to)
     || negb (JS.truthy amt) || JS.le amt JS.zero
  then (R_error "Invalid withdrawal request", s)
  else
    let u := getWithdrawUsage (Date_now e 0%nat) s userId in
    let dailyUsed := dailyUsed u in
    let monthlyUsed := monthlyUsed u in
    if JS.gt (JS.add amt dailyUsed) WITHDRAW_LIMIT_DAILY then
      let remaining := JS.max JS.zero (JS.sub WITHDRAW_LIMIT_DAILY dailyUsed) in
      (R_daily_limit WITHDRAW_LIMIT_DAILY dailyUsed remaining, s)
    else if JS.gt (JS.add amt monthlyUsed) WITHDRAW_LIMIT_MONTHLY then
      let remaining :=
        JS.max JS.zero (JS.sub WITHDRAW_LIMIT_MONTHLY monthlyUsed) in
      (R_monthly_limit WITHDRAW_LIMIT_MONTHLY monthlyUsed remaining, s)
    else
      let feeTon := JS.mul amt WITHDRAW_FEE_RATE in
      let netTon := JS.sub amt feeTon in
      match debit userId amt (ledger s) with
      | (inl err, l) => (R_error (error_message err), set_ledger l s)
      | (inr _, l) =>
        let now := Date_now e 1%nat in
        let userLog := default [] (withdrawalLog s !! userId) in
        let userLog' := userLog ++ [{| ts := now; le_amountTon := amt |}] in
        let requestId := ("wd_" +:+ toString16 (Date_now e 2%nat))%string in
        let entry := {| w_id := requestId; w_userId := userId;
                        w_amountTon := amt; w_feeTon := feeTon;
                        w_netTon := netTon; w_to := to;
                        w_status := Pending; w_requestedAt := now;
                        w_txHash := None; w_completedAt := None;
                        w_processedAt := None |} in
        let newDailyUsed := JS.add dailyUsed amt in
        let newMonthlyUsed := JS.add monthlyUsed amt in
        let dailyRemaining :=
          JS.max JS.zero (JS.sub WITHDRAW_LIMIT_DAILY newDailyUsed) in
        let monthlyRemaining :=
          JS.max JS.zero (JS.sub WITHDRAW_LIMIT_MONTHLY newMonthlyUsed) in
        (R_withdraw requestId feeTon netTon
           {| used := newDailyUsed; remaining := dailyRemaining;
              limit := WITHDRAW_LIMIT_DAILY |}
           {| used := newMonthlyUsed; remaining := monthlyRemaining;
              limit := WITHDRAW_LIMIT_MONTHLY |},
         {| ledger := l; markets := markets s;
            nextMarketId := nextMarketId s; nextBetId := nextBetId s;
            withdrawalLog := <[userId := userLog']> (withdrawalLog s);
            withdrawQueue := withdrawQueue s ++ [entry] |})
      end.

(** POST /api/admin/withdrawals/process, the first handler of the route in
    [handleApi]: the secret comes in the JSON body. *)
Definition api_admin_withdrawals_process (e : env) (data : body) (s : state)
  : response * state :=
  if negb (nonempty ADMIN_SECRET) || negb (String.eqb (secret data) ADMIN_SECRET)
  then (R_forbidden "Forbidden", s)
  else match find_ref (fun w => String.eqb (w_id w) (withdrawal_id data))
                      (withdrawQueue s) with
  | None => (R_not_found "Withdrawal not found", s)
  | Some (idx, entry) =>
    match w_status entry with
    | Completed => (R_withdrawal entry, s)
    | Pending =>
      let entry' := {|
        w_id := w_id entry; w_userId := w_userId entry;
        w_amountTon := w_amountTon entry; w_feeTon := w_feeTon entry;
        w_netTon := w_netTon entry; w_to := w_to entry;
        w_status := Completed; w_requestedAt := w_requestedAt entry;
        w_txHash := Some (if nonempty (txHash data)
                          then Some (txHash data) else None);
        w_completedAt := Some (Date_now e 0%nat);
        w_processedAt := w_processedAt entry |} in
      (R_withdrawal entry',
       set_withdrawQueue (<[idx := entry']> (withdrawQueue s)) s)
    end
  end.

(** POST /api/admin/withdrawals/process, the second handler of the same
    route, further down in [handleApi]: the secret comes in the header or
    the query string. *)
Definition api_admin_withdrawals_process_2 (e : env) (data : body) (s : state)
  : response * state :=
  if negb (nonempty ADMIN_SECRET)
     || negb (String.eqb (header_secret e) ADMIN_SECRET)
  then (R_forbidden "Unauthorized", s)
  else match find_ref (fun w => String.eqb (w_id w) (withdrawal_id data))
                      (withdrawQueue s) with
  | None => (R_not_found "Withdrawal not found", s)
  | Some (idx, entry) =>
    match w_status entry with
    | Completed => (R_error "Withdrawal already processed", s)
    | Pending =>
      let entry' := {|
        w_id := w_id entry; w_userId := w_userId entry;
        w_amountTon := w_amountTon entry; w_feeTon := w_feeTon entry;
        w_netTon := w_netTon entry; w_to := w_to entry;
        w_status := Completed; w_requestedAt := w_requestedAt entry;
        w_txHash := w_txHash entry;
        w_completedAt := w_completedAt entry;
        w_processedAt := Some (Date_now e 0%nat) |} in
      (R_withdrawal entry',
       set_withdrawQueue (<[idx := entry']> (withdrawQueue s)) s)
    end
  end.

(** The part of [handleApi] that dispatches the POST routes of the core,
    in the order of the source: the first handler whose test on
    [pathname] succeeds answers the request. *)
Definition routes : list (string * (env -> body -> state -> response * state)) :=
  [ ("/api/prediction/open", api_prediction_open);
    ("/api/prediction/settle", api_prediction_settle);
    ("/api/admin/withdrawals/process", api_admin_withdrawals_process);
    ("/api/wallet/deposit/webhook", fun _ => api_wallet_deposit_webhook);
    ("/api/wallet/withdraw", api_wallet_withdraw);
    ("/api/admin/withdrawals/process", api_admin_withdrawals_process_2) ].

Fixpoint dispatch (rs : list (string * (env -> body -> state -> response * state)))
    (pathname : string) (e : env) (data : body) (s : state)
  : response * state :=
  match rs with
  | [] => (R_unhandled, s)
  | (path, handler) :: rest =>
      if String.eqb pathname path then handler e data s
      else dispatch rest pathname e data s
  end.

Definition handleApi (pathname : string) (e : env) (data : body) (s : state)
  : response * state :=
  dispatch routes pathname e data s.

(** The states the server can be in: the initial one, and the state after
    each request. *)
Inductive reachable : state -> Prop :=
| reachable_initial : reachable initial
| reachable_request s pathname e data :
    reachable s -> reachable (snd (handleApi pathname e data s)).

(** The handlers of /api/prediction/open and /api/prediction/settle are
    [async]: each is suspended at its [await]s, and other requests run in
    the meantime; between two [await]s the code runs alone.  The states the
    server goes through when requests overlap are reached by the pieces of
    these handlers, in any order: the debit that follows validation, the
    creation of a market once the price provider has answered, the recording
    of a bet (whose amount has passed validation) in the market object the
    handler holds, and the payouts of a settlement that found the market
    open before it queried the provider.  The other handlers of the core
    have no [await]. *)
Inductive interleaved : state -> Prop :=
| interleaved_initial : interleaved initial
| interleaved_request s pathname e data :
    interleaved s -> interleaved (snd (handleApi pathname e data s))
| interleaved_debit s userId amount :
    interleaved s ->
    interleaved (set_ledger (snd (debit userId amount (ledger s))) s)
| interleaved_create s now provider asset expiry :
    interleaved s ->
    interleaved (snd (create_market now provider asset expiry s))
| interleaved_place s ref userId d amount :
    interleaved s ->
    negb (JS.truthy amount) || JS.le amount JS.zero = false ->
    interleaved (snd (place_bet ref userId d amount s))
| interleaved_settle s ref provider :
    interleaved s -> interleaved (settle_finish_at ref provider s).

End Server.

(** * Definitions used to state the properties *)

(** ** Sums of stakes and the invariant of a market *)

(** [let sum = 0; for (const x of xs) sum += x] *)
Definition sum_list (xs : list num) : num := fold_left JS.add xs JS.zero.

(** The sum of [stakeTon] over a list of bets. *)
Definition stakes (bets : list bet) : num := sum_list (map b_stakeTon bets).

(** The bets placed on one side. *)
Definition on_side (d : direction) (bets : list bet) : list bet :=
  List.filter (fun b => direction_eqb (b_direction b) d) bets.

(** Each pool holds the stakes placed on its side, every stake passed the
    test [amount > 0], and the strike came out of [computeTwapCap]. *)
Record market_wf (m : market) : Prop := {
  wf_above : JS.same (above (m_pools m)) (stakes (on_side Above (m_bets m)));
  wf_below : JS.same (below (m_pools m)) (stakes (on_side Below (m_bets m)));
  wf_stakes : Forall (fun b => JS.positive (b_stakeTon b)) (m_bets m);
  wf_strike : JS.isFinite (m_strike m) = true
}.


Definition state_wf (s : state) : Prop := Forall market_wf (markets s).

(** A market is created open, with empty pools and no bets. *)
Definition fresh_market (m : market) : Prop :=
  m_pools m = {| above := JS.zero; below := JS.zero |}
  /\ m_bets m = [] /\ m_status m = Open /\ m_strike m = m_entryCap m.

(** ** The credits of a settlement *)

(** The calls [credit(userId, ton)] that the loops of [settleMarket] make, in
    order, as pairs [(userId, ton)]. *)
Definition credits_of (winner : outcome) (perTon : num) (bets : list bet)
  : list (string * num) :=
  match winner with
  | Draw => map (fun b => (b_userId b, b_stakeTon b)) bets
  | Win _ =>
      map (fun b => (b_userId b, JS.mul (b_stakeTon b) perTon))
          (List.filter (is_winner winner) bets)
  end.

(** [perTon] in [settleMarket], for the winning side [d]. *)
Definition perTon_of (m : market) (d : direction) : num :=
  let total := JS.add (above (m_pools m)) (below (m_pools m)) in
  let fee := JS.mul total (Fin (2 # 100)) in
  let distributable := JS.sub total fee in
  let winPool := pool_of (m_pools m) d in
  if JS.gt winPool JS.zero then JS.div distributable winPool else JS.zero.

(** The calls [credit(userId, ton)] that [settleMarket] makes on [m]. *)
Definition settle_credits (provider : option num) (m : market)
  : list (string * num) :=
  match m_status m with
  | Settled => []
  | Open =>
      match winner_of (m_strike m) (computeTwapCap provider) with
      | Draw => credits_of Draw JS.zero (m_bets m)
      | Win d => credits_of (Win d) (perTon_of m d) (m_bets m)
      end
  end.

(** The ledger after a sequence of calls of [credit]. *)
Definition apply_credits (cs : list (string * num)) (l : gmap string account)
  : gmap string account :=
  fold_left (fun l c => credit (fst c) (snd c) l) cs l.

Definition other_side (d : direction) : direction :=
  match d with Above => Below | Below => Above end.







(** ** Withdrawals *)

(** The sum of the logged withdrawals of the trailing window, in the words of
    the specification: the amounts of the entries whose age is less than the
    window. *)
Definition trailing_sum (window now : Z) (logs : list logEntry) : num :=
  sum_list (map le_amountTon
              (List.filter (fun entry => (now - ts entry <? window)%Z) logs)).

Definition user_log (s : state) (userId : string) : list logEntry :=
  default [] (withdrawalLog s !! userId).

(** [entry], at index [idx], is the first entry of the queue with this id. *)
Definition first_with_id (queue : list withdrawal) (wid : string)
    (idx : nat) (entry : withdrawal) : Prop :=
  queue !! idx = Some entry /\ w_id entry = wid
  /\ forall j w, (j < idx)%nat -> queue !! j = Some w -> w_id w <> wid.

(** ** Scenarios *)

(** The default configuration, with an admin secret. *)
Definition server :=
  handleApi (Fin (5 # 100)) (Fin 500) (Fin 3000) ["GIFTS"; "STICKERS"; "TON"]
            "s3cret".

Definition at_time (t : Z) (answer : option num) : env :=
  {| Date_now := fun _ => t; provider_answer := answer; header_secret := "" |}.

Definition deposit_request (user : string) (ton : num) : body := {|
  userId := user; asset := ""; direction_ := ""; amount := NaN;
  expiryMinutes := 0; marketId := 0; amountTon := ton; to := "";
  secret := ""; withdrawal_id := ""; txHash := "" |}.

Definition open_request (user ast dir : string) (stake : num) (minutes : Z)
  : body := {|
  userId := user; asset := ast; direction_ := dir; amount := stake;
  expiryMinutes := minutes; marketId := 0; amountTon := NaN; to := "";
  secret := ""; withdrawal_id := ""; txHash := "" |}.

Definition settle_request (mid : Z) : body := {|
  userId := ""; asset := ""; direction_ := ""; amount := NaN;
  expiryMinutes := 0; marketId := mid; amountTon := NaN; to := "";
  secret := ""; withdrawal_id := ""; txHash := "" |}.

Definition withdraw_request (user dest : string) (ton : num) : body := {|
  userId := user; asset := ""; direction_ := ""; amount := NaN;
  expiryMinutes := 0; marketId := 0; amountTon := ton; to := dest;
  secret := ""; withdrawal_id := ""; txHash := "" |}.

(** Alice deposits 100 TON, then stakes 30 TON on 'above' in a GIFTS market
    whose strike is 1000. *)
Definition after_deposit : state :=
  snd (server "/api/wallet/deposit/webhook" (at_time 0 None)
         (deposit_request "alice" (Fin 100)) initial).

Definition after_bet : state :=
  snd (server "/api/prediction/open" (at_time 0 (Some (Fin 1000)))
         (open_request "alice" "GIFTS" "above" (Fin 30) 5) after_deposit).

Definition staked_market : market := {|
  m_id := 1; m_asset := "GIFTS"; m_expiry := 300000;
  m_strike := Fin 1000; m_entryCap := Fin 1000;
  m_pools := {| above := Fin 30; below := Fin 0 |};
  m_bets := [ {| b_id := 1; b_userId := "alice"; b_direction := Above;
                 b_stakeTon := Fin 30 |} ];
  m_status := Open; m_openedAt := 0;
  m_settleCap := None; m_feeCollected := None |}.





(** Alice has 100 TON and has withdrawn 490 TON during the last day. *)
Definition near_daily_limit : state := {|
  ledger := {[ "alice" := {| balanceTon := Fin 100 |} ]};
  markets := []; nextMarketId := 1; nextBetId := 1;
  withdrawalLog := {[ "alice" := [ {| ts := 0; le_amountTon := Fin 490 |} ] ]};
  withdrawQueue := [] |}.

(** Alice has 5 TON. *)
Definition small_balance : state := {|
  ledger := {[ "alice" := {| balanceTon := Fin 5 |} ]};
  markets := []; nextMarketId := 1; nextBetId := 1;
  withdrawalLog := ∅; withdrawQueue := [] |}.

(** A market on which 30 TON were staked, all on 'below'. *)
Definition one_sided_market : market := {|
  m_id := 1; m_asset := "GIFTS"; m_expiry := 60000;
  m_strike := Fin 1000; m_entryCap := Fin 1000;
  m_pools := {| above := Fin 0; below := Fin 30 |};
  m_bets := [ {| b_id := 1; b_userId := "bob"; b_direction := Below;
                 b_stakeTon := Fin 30 |} ];
  m_status := Open; m_openedAt := 0;
  m_settleCap := None; m_feeCollected := None |}.



Definition noon : env :=
  {| Date_now := fun _ => 6336%Z; provider_answer := Some (Fin 1000);
     header_secret := "s3cret" |}.



(** * The rest of the server's state-changing code *)

(** ** Read-only wallet routes *)

(** GET /api/wallet/balance: [userId] is the query parameter, the empty
    string when it is missing. *)
Definition api_wallet_balance (userId : string) (s : state) : string + num :=
  if negb (nonempty userId) then inl "Missing userId parameter"
  else inr (getBal (ledger s) userId).

Section Limits.

Variable WITHDRAW_LIMIT_DAILY : num.
Variable WITHDRAW_LIMIT_MONTHLY : num.


End Limits.

(** ** Perpetual positions (source: [positions], /api/perp/open,
    /api/perp/close) *)

Record position : Type := {
  p_id : Z;
  p_asset : string;
  p_side : string;
  p_leverage : num;
  p_amount : num;
  p_pnl : num;
  p_openedAt : Z
}.

(** [positions.length > 0 ? positions[positions.length - 1].id + 1 : 1] *)
Definition next_position_id (positions : list position) : Z :=
  match last positions with
  | Some p => (p_id p + 1)%Z
  | None => 1%Z
  end.

(** POST /api/perp/open: answers with the id of the new position.  The body
    fields [asset] and [side] are the empty string when missing. *)
Definition api_perp_open (now : Z) (asset side : string) (leverage amount : num)
    (positions : list position) : Z * list position :=
  let id := next_position_id positions in
  let position := {|
    p_id := id;
    p_asset := if nonempty asset then asset else "TON";
    p_side := if nonempty side then side else "long";
    p_leverage := if JS.truthy leverage then leverage else Fin 1;
    p_amount := JS.orZero amount;
    p_pnl := JS.zero;
    p_openedAt := now |} in
  (id, positions ++ [position]).

(** POST /api/perp/close: [id] is [Number(id)]; the answer is [true] for
    'Position closed' and [false] for 'Position not found.' (404). *)
Definition api_perp_close (id : num) (positions : list position)
  : bool * list position :=
  match find_ref (fun p => JS.eqb (Fin (inject_Z (p_id p))) id) positions with
  | Some (index, _) => (true, delete index positions)
  | None => (false, positions)
  end.

(** ** Runs of requests *)

Section Runs.

Variable WITHDRAW_FEE_RATE : num.
Variable WITHDRAW_LIMIT_DAILY : num.
Variable WITHDRAW_LIMIT_MONTHLY : num.
Variable ALLOWED_PREDICTION_ASSETS : list string.
Variable ADMIN_SECRET : string.

(** The state after a sequence of requests, each with its path, its
    environment and its body, handled one after the other. *)
Definition run (requests : list (string * env * body)) (s : state) : state :=
  fold_left
    (fun s r =>
       snd (handleApi WITHDRAW_FEE_RATE WITHDRAW_LIMIT_DAILY
              WITHDRAW_LIMIT_MONTHLY ALLOWED_PREDICTION_ASSETS ADMIN_SECRET
              (fst (fst r)) (snd (fst r)) (snd r) s))
    requests s.

End Runs.

(** ** Definitions used to state the further properties *)

(** What a request does to the registry: nothing, or what one of the three
    pieces of the [async] handlers does. *)
Inductive registry_step (s : state) : list market * Z -> Prop :=
| registry_same : registry_step s (markets s, nextMarketId s)
| registry_create now provider asset expiry :
    registry_step s (markets s ++ [snd (fst (create_market now provider asset
                                                             expiry s))],
                     (nextMarketId s + 1)%Z)
| registry_then ms n ref b :
    registry_step s (ms, n) -> JS.positive (b_stakeTon b) ->
    registry_step s (alter (add_bet b) ref ms, n)
| registry_settle ref m provider l :
    markets s !! ref = Some m ->
    registry_step s (<[ref := fst (settle_finish provider m l)]> (markets s),
                     nextMarketId s).

(** The number is not negative: NaN, a finite number that is at least 0, or
    [Infinity].  It is what [x < 0] being false says. *)
Definition not_negative (x : num) : Prop := JS.lt x JS.zero = false.

(** The queued requests of a user. *)
Definition user_requests (s : state) (userId : string) : list withdrawal :=
  List.filter (fun w => String.eqb (w_userId w) userId) (withdrawQueue s).

(** What the body of a request is when [JSON.parse] fails or the body is
    empty: [parseBody] calls the handler with [{}]. *)
Definition empty_body : body := {|
  userId := ""; asset := ""; direction_ := ""; amount := NaN;
  expiryMinutes := 0; marketId := 0; amountTon := NaN; to := "";
  secret := ""; withdrawal_id := ""; txHash := "" |}.

(** The ids of the positions increase strictly along the array. *)
Definition ids_increase (positions : list position) : Prop :=
  forall i j p q, (i < j)%nat -> positions !! i = Some p ->
    positions !! j = Some q -> (p_id p < p_id q)%Z.

(** What the fields of a market say together. *)
Definition market_consistent (m : market) : Prop :=
  JS.isFinite (m_strike m) = true
  /\ Forall (fun b => JS.positive (b_stakeTon b)) (m_bets m)
  /\ match m_status m with
     | Open => m_settleCap m = None /\ m_feeCollected m = None
     | Settled =>
         exists settleCap fee,
           m_settleCap m = Some settleCap
           /\ JS.isFinite settleCap = true
           /\ m_feeCollected m = Some fee
     end.

(** ** The withdrawal queue over time *)

(** The fields of a request that say what was asked. *)
Definition same_request (w w' : withdrawal) : Prop :=
  w_id w' = w_id w /\ w_userId w' = w_userId w
  /\ w_amountTon w' = w_amountTon w /\ w_feeTon w' = w_feeTon w
  /\ w_netTon w' = w_netTon w /\ w_to w' = w_to w
  /\ w_requestedAt w' = w_requestedAt w.

(** An earlier entry of the queue has the id of the entry [w] at index [j]. *)
Definition shadowed (queue : list withdrawal) (j : nat) (w : withdrawal)
  : Prop :=
  exists i w0, (i < j)%nat /\ queue !! i = Some w0 /\ w_id w0 = w_id w.

(** Every entry of [queue] is still in [queue'], at its index, asking for the
    same; it is unchanged if it was completed, or shadowed. *)
Definition queue_extends (queue queue' : list withdrawal) : Prop :=
  forall j w, queue !! j = Some w ->
    exists w', queue' !! j = Some w' /\ same_request w w'
               /\ (w_status w = Completed -> w' = w)
               /\ (shadowed queue j w -> w' = w).


(** The log of each user lists, in order, the times and the amounts of the
    requests of that user in the queue. *)
Definition log_matches_queue (s : state) : Prop :=
  forall u,
    map (fun w => (w_requestedAt w, w_amountTon w)) (user_requests s u)
    = map (fun entry => (ts entry, le_amountTon entry)) (user_log s u).

(** The request that [/api/wallet/withdraw] queues. *)
Definition queued_request (rate : num) (uid dest : string) (amt : num)
    (t t' : Z) : withdrawal := {|
  w_id := ("wd_" +:+ toString16 t')%string; w_userId := uid;
  w_amountTon := amt; w_feeTon := JS.mul amt rate;
  w_netTon := JS.sub amt (JS.mul amt rate); w_to := dest;
  w_status := Pending; w_requestedAt := t;
  w_txHash := None; w_completedAt := None; w_processedAt := None |}.

(** The request as the first handler of the process route leaves it. *)
Definition completed (entry : withdrawal) (t : Z) (h : option string)
  : withdrawal := {|
  w_id := w_id entry; w_userId := w_userId entry;
  w_amountTon := w_amountTon entry; w_feeTon := w_feeTon entry;
  w_netTon := w_netTon entry; w_to := w_to entry;
  w_status := Completed; w_requestedAt := w_requestedAt entry;
  w_txHash := Some h; w_completedAt := Some t;
  w_processedAt := w_processedAt entry |}.

(** What a request does to the queue and the log: nothing, or what a
    withdrawal that goes through does, or, when it carries the admin secret
    ([authorised]), what the completion of a pending request does. *)
Inductive queue_step (rate : num) (s : state) (authorised : bool)
  : list withdrawal * gmap string (list logEntry) -> Prop :=
| queue_same : queue_step rate s authorised (withdrawQueue s, withdrawalLog s)
| queue_push uid dest amt t t' :
    JS.positive amt -> uid <> "" -> dest <> "" ->
    queue_step rate s authorised
      (withdrawQueue s ++ [queued_request rate uid dest amt t t'],
       <[uid := user_log s uid ++ [{| ts := t; le_amountTon := amt |}]]>
         (withdrawalLog s))
| queue_complete idx entry t h :
    authorised = true ->
    first_with_id (withdrawQueue s) (w_id entry) idx entry ->
    w_status entry = Pending ->
    queue_step rate s authorised
      (<[idx := completed entry t h]> (withdrawQueue s), withdrawalLog s).

(** The request carries the admin secret, and the server has one. *)
Definition has_secret (adminSecret : string) (data : body) : bool :=
  nonempty adminSecret && String.eqb (secret data) adminSecret.

(** ** Requests on the perpetual positions *)

(** The two requests that change the [positions] array, with the fields of
    their bodies. *)
Inductive perp_request : Type :=
| Perp_open (now : Z) (asset side : string) (leverage amount : num)
| Perp_close (id : num).

Definition perp_serve (positions : list position) (r : perp_request)
  : list position :=
  match r with
  | Perp_open now asset side leverage amount =>
      snd (api_perp_open now asset side leverage amount positions)
  | Perp_close id => snd (api_perp_close id positions)
  end.

(** The positions after the requests, on a server that has just started
    ([const positions = []]). *)
Definition perp_run (requests : list perp_request) : list position :=
  fold_left perp_serve requests [].

(** [p.id === Number(id)] for a position [p]. *)
Definition has_id (id : num) (p : position) : bool :=
  JS.eqb (Fin (inject_Z (p_id p))) id.

(** ** Further scenarios *)

(** Alice deposits 100 TON and asks twice, in the same millisecond, for a
    withdrawal: of 10 TON, then of 20 TON. *)
Definition after_one_withdrawal : state :=
  snd (server "/api/wallet/withdraw" (at_time 1000 None)
         (withdraw_request "alice" "EQalice" (Fin 10)) after_deposit).

Definition after_two_withdrawals : state :=
  snd (server "/api/wallet/withdraw" (at_time 1000 None)
         (withdraw_request "alice" "EQalice" (Fin 20)) after_one_withdrawal).

Definition first_request : withdrawal :=
  queued_request (Fin (5 # 100)) "alice" "EQalice" (Fin 10) 1000 1000.

Definition second_request : withdrawal :=
  queued_request (Fin (5 # 100)) "alice" "EQalice" (Fin 20) 1000 1000.

(** The admin completes the request 'wd_3e8', twice. *)
Definition complete_3e8 : string * env * body :=
  ("/api/admin/withdrawals/process", noon,
   {| userId := ""; asset := ""; direction_ := ""; amount := NaN;
      expiryMinutes := 0; marketId := 0; amountTon := NaN; to := "";
      secret := "s3cret"; withdrawal_id := "wd_3e8"; txHash := "0xabc" |}).

(** Two positions are opened. *)
Definition two_positions : list position :=
  perp_run [Perp_open 0 "TON" "long" (Fin 2) (Fin 10);
            Perp_open 5 "BTC" "short" (Fin 3) (Fin 1)].

Definition second_position : position := {|
  p_id := 2; p_asset := "BTC"; p_side := "short"; p_leverage := Fin 3;
  p_amount := Fin 1; p_pnl := JS.zero; p_openedAt := 5 |}.

(** * Properties *)

(** ** Facts about JavaScript numbers *)

Module NumFacts.

Lemma Qltb_lt (a b : Q) : JS.Qltb a b = true <-> a < b.
Proof.
  unfold JS.Qltb. rewrite negb_true_iff.
  destruct (Qle_bool b a) eqn:E.
  - apply Qle_bool_iff in E. split; [discriminate | lra].
  - split; [intros _ | reflexivity].
    apply Qnot_le_lt. intros H. apply Qle_bool_iff in H. congruence.
Qed.

Lemma Qltb_ge (a b : Q) : JS.Qltb a b = false <-> b <= a.
Proof.
  unfold JS.Qltb. rewrite negb_false_iff. apply Qle_bool_iff.
Qed.

Lemma Qeq_bool_false (a b : Q) : Qeq_bool a b = false <-> ~ a == b.
Proof.
  split.
  - intros E H. apply Qeq_bool_iff in H. congruence.
  - intros H. destruct (Qeq_bool a b) eqn:E; [|reflexivity].
    apply Qeq_bool_iff in E. contradiction.
Qed.

Lemma same_refl (x : num) : JS.same x x.
Proof. destruct x; simpl; auto with qarith. Qed.

Lemma same_sym (x y : num) : JS.same x y -> JS.same y x.
Proof. destruct x, y; simpl; auto with qarith. Qed.

Lemma same_trans (x y z : num) : JS.same x y -> JS.same y z -> JS.same x z.
Proof.
  destruct x, y, z; simpl; try tauto. intros H1 H2. now rewrite H1.
Qed.

Lemma eq_same (x y : num) : x = y -> JS.same x y.
Proof. intros ->. apply same_refl. Qed.

Lemma add_comm (x y : num) : JS.same (JS.add x y) (JS.add y x).
Proof. destruct x, y; simpl; auto. ring. Qed.


Lemma add_same (x x' y y' : num) :
  JS.same x x' -> JS.same y y' -> JS.same (JS.add x y) (JS.add x' y').
Proof.
  destruct x, x', y, y'; simpl; try tauto. intros H1 H2. now rewrite H1, H2.
Qed.

Lemma add_zero_r (x : num) : JS.same (JS.add x JS.zero) x.
Proof. destruct x; simpl; auto. ring. Qed.

Lemma add_zero_l (x : num) : JS.same (JS.add JS.zero x) x.
Proof. destruct x; simpl; auto. ring. Qed.

(** [x || 0] is [x], except that NaN becomes 0. *)
Lemma orZero_same (x : num) : x <> NaN -> JS.same (JS.orZero x) x.
Proof.
  intros H. destruct x as [| | |q]; simpl; try tauto.
  unfold JS.orZero; simpl. destruct (Qeq_bool q 0) eqn:E; simpl.
  - apply Qeq_bool_iff in E. now symmetry.
  - reflexivity.
Qed.

Lemma orZero_truthy (x : num) : JS.truthy x = true -> JS.orZero x = x.
Proof. unfold JS.orZero. now intros ->. Qed.

Lemma positive_truthy (x : num) : JS.positive x -> JS.truthy x = true.
Proof.
  unfold JS.positive. destruct x as [| | |q]; simpl; try discriminate; auto.
  intros H. apply Qltb_lt in H. apply negb_true_iff, Qeq_bool_false. lra.
Qed.

(** What passes the handlers' test [!amt || amt <= 0]. *)
Lemma validated_positive (x : num) :
  negb (JS.truthy x) || JS.le x JS.zero = false -> JS.positive x.
Proof.
  unfold JS.positive. destruct x as [| | |q]; simpl; try discriminate; auto.
  rewrite orb_false_iff, negb_false_iff. intros [_ H].
  apply Qltb_lt. apply Qnot_le_lt. intros L. apply Qle_bool_iff in L. congruence.
Qed.

End NumFacts.

(** ** The ledger *)

Lemma getBal_insert (l : gmap string account) (u v : string) (r : account) :
  getBal (<[u := r]> l) v = if decide (u = v) then balanceTon r else getBal l v.
Proof.
  unfold getBal. rewrite lookup_insert. now destruct (decide (u = v)).
Qed.

Lemma getBal_credit (l : gmap string account) (u v : string) (a : num) :
  getBal (credit u a l) v =
  if decide (u = v) then JS.add (getBal l u) (JS.orZero a) else getBal l v.
Proof. unfold credit. now rewrite getBal_insert. Qed.

(** C3, as the code has it.  [credit] has no failure path (it is a total
    function that returns the new ledger).  An amount that is NaN leaves the
    balance of the user as it is; every other amount, negative and infinite
    ones included, is added to the balance; so a finite non-negative amount
    increases the balance by that amount.  No other balance changes. *)
Theorem credit_adds_amount (userId : string) (amount : num)
    (l : gmap string account) :
  (amount = NaN ->
     JS.same (getBal (credit userId amount l) userId) (getBal l userId))
  /\ (amount <> NaN ->
     JS.same (getBal (credit userId amount l) userId)
             (JS.add (getBal l userId) amount))
  /\ (forall other, other <> userId ->
     getBal (credit userId amount l) other = getBal l other).
Proof.
  repeat split.
  - intros ->. rewrite getBal_credit, decide_True by reflexivity.
    apply NumFacts.add_zero_r.
  - intros H. rewrite getBal_credit, decide_True by reflexivity.
    apply NumFacts.add_same; [apply NumFacts.same_refl|].
    now apply NumFacts.orZero_same.
  - intros other H. rewrite getBal_credit, decide_False; congruence.
Qed.

(** C3, as stated, fails: crediting the negative amount -5 to a balance of 10
    raises nothing and leaves a balance of 5. *)
Lemma credit_negative_amount_changes_balance :
  let l : gmap string account := {[ "alice" := {| balanceTon := Fin 10 |} ]} in
  JS.lt (Fin (-5)) JS.zero = true
  /\ JS.same (getBal (credit "alice" (Fin (-5)) l) "alice") (Fin 5)
  /\ ~ JS.same (getBal (credit "alice" (Fin (-5)) l) "alice") (getBal l "alice").
Proof.
  simpl. split; [reflexivity|].
  rewrite getBal_credit, decide_True by reflexivity.
  unfold getBal. rewrite lookup_singleton_eq. simpl.
  split; [reflexivity | discriminate].
Qed.

Lemma debit_cases (u : string) (a : num) (l : gmap string account) :
  (JS.le (JS.orZero a) JS.zero = true
     /\ debit u a l = (inl Invalid_debit_amount, l))
  \/ (JS.le (JS.orZero a) JS.zero = false
     /\ JS.lt (getBal l u) (JS.orZero a) = true
     /\ debit u a l = (inl Insufficient_balance, l))
  \/ (JS.le (JS.orZero a) JS.zero = false
     /\ JS.lt (getBal l u) (JS.orZero a) = false
     /\ debit u a l =
        (inr tt, <[u := {| balanceTon := JS.sub (getBal l u) (JS.orZero a) |}]> l)).
Proof.
  unfold debit.
  destruct (JS.le (JS.orZero a) JS.zero); [now left|].
  destruct (JS.lt (getBal l u) (JS.orZero a)); [right; left | right; right]; auto.
Qed.

(** The coerced amount [Number(ton) || 0] is rejected exactly when the
    argument is NaN or at most 0; when it is accepted it is the argument. *)
Lemma orZero_le_zero (a : num) :
  JS.le (JS.orZero a) JS.zero = true <-> (JS.le a JS.zero = true \/ a = NaN).
Proof.
  destruct a as [| | |q]; unfold JS.orZero; simpl.
  - split; [now right | reflexivity].
  - split; [now left | reflexivity].
  - split; [discriminate | intros [H|H]; discriminate].
  - destruct (Qeq_bool q 0) eqn:E; simpl.
    + apply Qeq_bool_iff in E. split; [intros _; left | reflexivity].
      apply Qle_bool_iff. lra.
    + split; [now left | intros [H|H]; [assumption | discriminate]].
Qed.

Lemma orZero_accepted (a : num) :
  JS.le (JS.orZero a) JS.zero = false -> JS.orZero a = a /\ JS.lt JS.zero a = true.
Proof.
  destruct a as [| | |q]; unfold JS.orZero; simpl; try discriminate; auto.
  destruct (Qeq_bool q 0) eqn:E; simpl; [discriminate|].
  intros H. split; [reflexivity|].
  apply NumFacts.Qltb_lt. apply Qnot_le_lt. intros L.
  apply Qle_bool_iff in L. congruence.
Qed.

Lemma lt_zero_not_le (a : num) : JS.lt JS.zero a = true -> JS.le a JS.zero = false.
Proof.
  destruct a as [| | |q]; simpl; try discriminate; auto.
  intros H. apply NumFacts.Qltb_lt in H.
  destruct (Qle_bool q 0) eqn:E; [|reflexivity].
  apply Qle_bool_iff in E. lra.
Qed.

(** C4, as the code has it.  [debit] fails with 'Invalid debit amount' exactly
    when the amount is at most 0 or is NaN (which [Number(ton) || 0] turns
    into 0); it fails with 'Insufficient balance' exactly when 0 < amount and
    the balance is less than the amount; in every other case it succeeds and
    the new balance is the old one minus the amount.  A failure changes no
    balance, and a success changes no other user's balance. *)
Theorem debit_outcomes (userId : string) (amount : num)
    (l : gmap string account) :
  (fst (debit userId amount l) = inl Invalid_debit_amount
     <-> (JS.le amount JS.zero = true \/ amount = NaN))
  /\ (fst (debit userId amount l) = inl Insufficient_balance
     <-> (JS.lt JS.zero amount = true /\ JS.lt (getBal l userId) amount = true))
  /\ (fst (debit userId amount l) = inr tt
     <-> (JS.lt JS.zero amount = true /\ JS.lt (getBal l userId) amount = false))
  /\ (forall err, fst (debit userId amount l) = inl err ->
        snd (debit userId amount l) = l)
  /\ (fst (debit userId amount l) = inr tt ->
        getBal (snd (debit userId amount l)) userId
          = JS.sub (getBal l userId) amount
        /\ forall other, other <> userId ->
             getBal (snd (debit userId amount l)) other = getBal l other).
Proof.
  assert (Hpos : JS.lt JS.zero amount = true ->
                 ~ (JS.le amount JS.zero = true \/ amount = NaN)).
  { intros P [Q | ->]; [apply lt_zero_not_le in P; congruence | discriminate]. }
  destruct (debit_cases userId amount l)
    as [[H1 E] | [[H1 [H2 E]] | [H1 [H2 E]]]]; rewrite E; simpl.
  - apply orZero_le_zero in H1.
    split; [tauto|]. split; [|split; [|split]].
    + split; [discriminate | intros [P _]; now apply Hpos in P].
    + split; [discriminate | intros [P _]; now apply Hpos in P].
    + reflexivity.
    + discriminate.
  - destruct (orZero_accepted _ H1) as [Ea Pa]. rewrite Ea in H2.
    split; [|split; [|split; [|split]]].
    + split; [discriminate | intros Q; now apply Hpos in Q].
    + tauto.
    + split; [discriminate | intros [_ Q]; congruence].
    + reflexivity.
    + discriminate.
  - destruct (orZero_accepted _ H1) as [Ea Pa]. rewrite Ea in *.
    split; [|split; [|split; [|split]]].
    + split; [discriminate | intros Q; now apply Hpos in Q].
    + split; [discriminate | intros [_ Q]; congruence].
    + tauto.
    + discriminate.
    + intros _. split.
      * now rewrite getBal_insert, decide_True.
      * intros other Hne. rewrite getBal_insert, decide_False; congruence.
Qed.

(** C4, as stated, fails on NaN: [NaN <= 0] is false and the claim lets the
    debit succeed, but the code throws 'Invalid debit amount'. *)
Lemma debit_NaN_is_invalid :
  let l : gmap string account := {[ "alice" := {| balanceTon := Fin 10 |} ]} in
  JS.le NaN JS.zero = false
  /\ fst (debit "alice" NaN l) = inl Invalid_debit_amount.
Proof. split; reflexivity. Qed.

(** ** Sums of amounts *)

#[local] Instance same_equivalence : Equivalence JS.same.
Proof.
  split.
  - exact NumFacts.same_refl.
  - exact NumFacts.same_sym.
  - exact NumFacts.same_trans.
Qed.

#[local] Instance add_proper : Proper (JS.same ==> JS.same ==> JS.same) JS.add.
Proof. intros x x' Hx y y' Hy. now apply NumFacts.add_same. Qed.

Lemma sum_list_snoc (xs : list num) (x : num) :
  sum_list (xs ++ [x]) = JS.add (sum_list xs) x.
Proof. unfold sum_list. now rewrite fold_left_app. Qed.

Lemma stakes_snoc (bets : list bet) (b : bet) :
  stakes (bets ++ [b]) = JS.add (stakes bets) (b_stakeTon b).
Proof. unfold stakes. rewrite map_app. simpl. now rewrite sum_list_snoc. Qed.

Lemma on_side_snoc (d : direction) (bets : list bet) (b : bet) :
  on_side d (bets ++ [b]) =
  if direction_eqb (b_direction b) d then on_side d bets ++ [b] else on_side d bets.
Proof.
  unfold on_side. rewrite List.filter_app. simpl.
  destruct (direction_eqb (b_direction b) d); [reflexivity | apply app_nil_r].
Qed.



(** ** The invariant of a market *)


Lemma computeTwapCap_finite (provider : option num) :
  JS.isFinite (computeTwapCap provider) = true.
Proof.
  unfold computeTwapCap. destruct provider as [c|]; [|reflexivity].
  destruct (JS.truthy c); simpl; [|reflexivity].
  destruct (JS.isFinite c) eqn:E; [assumption | reflexivity].
Qed.

Lemma find_ref_Some {A : Type} (p : A -> bool) (l : list A) (i : nat) (x : A) :
  find_ref p l = Some (i, x) ->
  l !! i = Some x /\ p x = true
  /\ forall j y, (j < i)%nat -> l !! j = Some y -> p y = false.
Proof.
  revert i. induction l as [|a l IH]; intros i; simpl; [discriminate|].
  destruct (p a) eqn:E.
  - intros [= <- <-]. repeat split; auto. intros j y Hj. lia.
  - destruct (find_ref p l) as [[k y]|] eqn:F; [|discriminate].
    intros [= <- <-]. destruct (IH k eq_refl) as (H1 & H2 & H3).
    repeat split; auto.
    intros [|j] z Hj; simpl.
    + now intros [= <-].
    + apply H3. lia.
Qed.


Lemma fresh_market_wf (m : market) :
  fresh_market m -> JS.isFinite (m_strike m) = true -> market_wf m.
Proof.
  intros (Hp & Hb & _ & _) Hk. split; rewrite ?Hp, ?Hb; simpl;
    try reflexivity; auto.
Qed.

Lemma getOrCreateMarket_spec (now : Z) (provider : option num) (asset : string)
    (expiryMinutes : Z) (s s2 : state) (ref : nat) (m : market) :
  getOrCreateMarket now provider asset expiryMinutes s = ((ref, m), s2) ->
  ledger s2 = ledger s /\ withdrawalLog s2 = withdrawalLog s
  /\ withdrawQueue s2 = withdrawQueue s
  /\ markets s2 !! ref = Some m
  /\ m_status m = Open
  /\ (markets s2 = markets s
      \/ (markets s2 = markets s ++ [m] /\ fresh_market m
          /\ m_strike m = computeTwapCap provider)).
Proof.
  unfold getOrCreateMarket.
  destruct (find_ref _ (markets s)) as [[i x]|] eqn:F.
  - intros [= <- <- <-]. apply find_ref_Some in F as (H1 & H2 & _).
    repeat split; auto.
    apply andb_true_iff in H2 as [_ H2]. now destruct (m_status x).
  - intros [= <- <- <-]. simpl. repeat split; auto.
    + rewrite lookup_app_r by lia. now rewrite Nat.sub_diag.
    + right. repeat split; reflexivity.
Qed.

Lemma add_bet_wf (m : market) (b : bet) :
  market_wf m -> JS.positive (b_stakeTon b) -> market_wf (add_bet b m).
Proof.
  intros [Ha Hb Hs Hk] Hp. split; simpl.
  - rewrite on_side_snoc. destruct (b_direction b); simpl; [|assumption].
    rewrite stakes_snoc. now rewrite Ha.
  - rewrite on_side_snoc. destruct (b_direction b); simpl; [assumption|].
    rewrite stakes_snoc. now rewrite Hb.
  - apply Forall_app. split; [assumption|].
    constructor; [assumption | constructor].
  - assumption.
Qed.

Lemma place_bet_wf (ref : nat) (userId : string) (d : direction) (amount : num)
    (s : state) :
  JS.positive amount -> state_wf s ->
  state_wf (snd (place_bet ref userId d amount s)).
Proof.
  intros Hp Hs. unfold state_wf, place_bet. simpl.
  apply Forall_alter; [exact Hs|]. intros m _ Hm. now apply add_bet_wf.
Qed.

Lemma create_market_wf (now : Z) (provider : option num) (asset : string)
    (expiry : Z) (s : state) :
  state_wf s -> state_wf (snd (create_market now provider asset expiry s)).
Proof.
  intros Hs. unfold state_wf, create_market. simpl.
  apply Forall_app. split; [exact Hs|]. constructor; [|constructor].
  split; simpl; try reflexivity; [constructor | apply computeTwapCap_finite].
Qed.

Lemma getOrCreateMarket_wf (now : Z) (provider : option num) (asset : string)
    (expiryMinutes : Z) (s : state) :
  state_wf s ->
  state_wf (snd (getOrCreateMarket now provider asset expiryMinutes s)).
Proof.
  intros Hs. unfold getOrCreateMarket.
  destruct (find_ref _ (markets s)) as [[i x]|]; [exact Hs|].
  now apply create_market_wf.
Qed.

(** Settlement changes neither the pools nor the bets nor the strike. *)
Lemma settleMarket_keeps (provider : option num) (m : market)
    (l : gmap string account) :
  let m' := fst (settleMarket provider m l) in
  m_pools m' = m_pools m /\ m_bets m' = m_bets m /\ m_strike m' = m_strike m
  /\ m_id m' = m_id m.
Proof.
  unfold settleMarket, settle_finish.
  destruct (negb (status_eqb (m_status m) Open)); simpl; auto.
Qed.

Lemma settleMarket_wf (provider : option num) (m : market)
    (l : gmap string account) :
  market_wf m -> market_wf (fst (settleMarket provider m l)).
Proof.
  intros [Ha Hb Hs Hk].
  destruct (settleMarket_keeps provider m l) as (Hp & Hbe & Hst & _).
  split; rewrite ?Hp, ?Hbe, ?Hst; assumption.
Qed.

Section Invariants.

Variable WITHDRAW_FEE_RATE : num.
Variable WITHDRAW_LIMIT_DAILY : num.
Variable WITHDRAW_LIMIT_MONTHLY : num.
Variable ALLOWED_PREDICTION_ASSETS : list string.
Variable ADMIN_SECRET : string.

Lemma api_prediction_open_wf (e : env) (data : body) (s : state) :
  state_wf s ->
  state_wf (snd (api_prediction_open ALLOWED_PREDICTION_ASSETS e data s)).
Proof.
  intros Hs. unfold api_prediction_open.
  destruct (negb (nonempty (userId data))); [exact Hs|].
  destruct (_ || _); [exact Hs|].
  destruct (parse_direction (direction_ data)) as [d|]; [|exact Hs].
  destruct (negb (JS.truthy (amount data)) || JS.le (amount data) JS.zero)
    eqn:Hamt; [exact Hs|].
  destruct (expiryMinutes data <=? 0)%Z; [exact Hs|].
  destruct (debit (userId data) (amount data) (ledger s)) as [[err|u] l];
    [exact Hs|].
  pose proof (getOrCreateMarket_wf (Date_now e 0%nat) (provider_answer e)
                (asset data) (expiryMinutes data) (set_ledger l s) Hs) as Hs2.
  destruct (getOrCreateMarket _ _ _ _ _) as [[ref m] s2].
  pose proof (place_bet_wf ref (userId data) d (amount data) s2
                (NumFacts.validated_positive _ Hamt) Hs2) as Hs3.
  now destruct (place_bet _ _ _ _ _) as [b s3].
Qed.

Lemma api_prediction_settle_wf (e : env) (data : body) (s : state) :
  state_wf s -> state_wf (snd (api_prediction_settle e data s)).
Proof.
  intros Hs. unfold api_prediction_settle.
  destruct (marketId data =? 0)%Z; [exact Hs|].
  destruct (find_ref _ (markets s)) as [[ref m]|] eqn:F; [|exact Hs].
  destruct (Date_now e 0%nat <? m_expiry m)%Z; [exact Hs|].
  destruct (settleMarket _ m (ledger s)) as [m' l] eqn:S.
  unfold state_wf. simpl. apply Forall_insert; [exact Hs|].
  change m' with (fst (m', l)). rewrite <- S. apply settleMarket_wf.
  apply find_ref_Some in F as (H1 & _).
  exact (Forall_lookup_1 _ _ _ _ Hs H1).
Qed.

(** The other handlers leave [markets] alone. *)
Lemma api_wallet_deposit_webhook_markets (data : body) (s : state) :
  markets (snd (api_wallet_deposit_webhook data s)) = markets s.
Proof.
  unfold api_wallet_deposit_webhook. now destruct (_ || _).
Qed.

Lemma api_wallet_withdraw_markets (e : env) (data : body) (s : state) :
  markets (snd (api_wallet_withdraw WITHDRAW_FEE_RATE WITHDRAW_LIMIT_DAILY
                  WITHDRAW_LIMIT_MONTHLY e data s)) = markets s.
Proof.
  unfold api_wallet_withdraw.
  destruct (_ || _); [reflexivity|].
  destruct (JS.gt _ WITHDRAW_LIMIT_DAILY); [reflexivity|].
  destruct (JS.gt _ WITHDRAW_LIMIT_MONTHLY); [reflexivity|].
  now destruct (debit _ _ _) as [[err|u] l].
Qed.

Lemma api_admin_withdrawals_process_markets (e : env) (data : body) (s : state) :
  markets (snd (api_admin_withdrawals_process ADMIN_SECRET e data s)) = markets s
  /\ ledger (snd (api_admin_withdrawals_process ADMIN_SECRET e data s)) = ledger s.
Proof.
  unfold api_admin_withdrawals_process.
  destruct (_ || _); [auto|].
  destruct (find_ref _ _) as [[idx entry]|]; [|auto].
  now destruct (w_status entry).
Qed.

Lemma api_admin_withdrawals_process_2_markets (e : env) (data : body) (s : state) :
  markets (snd (api_admin_withdrawals_process_2 ADMIN_SECRET e data s)) = markets s
  /\ ledger (snd (api_admin_withdrawals_process_2 ADMIN_SECRET e data s)) = ledger s.
Proof.
  unfold api_admin_withdrawals_process_2.
  destruct (_ || _); [auto|].
  destruct (find_ref _ _) as [[idx entry]|]; [|auto].
  now destruct (w_status entry).
Qed.

Abbreviation handle :=
  (handleApi WITHDRAW_FEE_RATE WITHDRAW_LIMIT_DAILY WITHDRAW_LIMIT_MONTHLY
             ALLOWED_PREDICTION_ASSETS ADMIN_SECRET).

(** A property of every handler of [routes] is a property of [handleApi]. *)
Lemma handleApi_cases (P : response * state -> Prop)
    (pathname : string) (e : env) (data : body) (s : state) :
  P (api_prediction_open ALLOWED_PREDICTION_ASSETS e data s) ->
  P (api_prediction_settle e data s) ->
  P (api_admin_withdrawals_process ADMIN_SECRET e data s) ->
  P (api_wallet_deposit_webhook data s) ->
  P (api_wallet_withdraw WITHDRAW_FEE_RATE WITHDRAW_LIMIT_DAILY
       WITHDRAW_LIMIT_MONTHLY e data s) ->
  P (R_unhandled, s) ->
  P (handle pathname e data s).
Proof.
  intros H1 H2 H3 H4 H5 H6. unfold handleApi, routes. simpl.
  repeat match goal with
         | |- context [String.eqb pathname ?p] =>
             destruct (String.eqb pathname p) eqn:?; try assumption
         end.
Qed.

Lemma handleApi_wf (pathname : string) (e : env) (data : body) (s : state) :
  state_wf s -> state_wf (snd (handle pathname e data s)).
Proof.
  intros Hs. apply handleApi_cases.
  - now apply api_prediction_open_wf.
  - now apply api_prediction_settle_wf.
  - unfold state_wf.
    now rewrite (proj1 (api_admin_withdrawals_process_markets e data s)).
  - unfold state_wf. now rewrite api_wallet_deposit_webhook_markets.
  - unfold state_wf. now rewrite api_wallet_withdraw_markets.
  - exact Hs.
Qed.

Lemma settle_finish_wf (provider : option num) (m : market)
    (l : gmap string account) :
  market_wf m -> market_wf (fst (settle_finish provider m l)).
Proof. intros [Ha Hb Hs Hk]. split; assumption. Qed.

Lemma settle_finish_at_wf (ref : nat) (provider : option num) (s : state) :
  state_wf s -> state_wf (settle_finish_at ref provider s).
Proof.
  intros Hs. unfold settle_finish_at.
  destruct (markets s !! ref) as [m|] eqn:Hm; [|exact Hs].
  pose proof (settle_finish_wf provider m (ledger s)
                (Forall_lookup_1 _ _ _ _ Hs Hm)) as Hwf.
  destruct (settle_finish provider m (ledger s)) as [m' l].
  unfold state_wf. simpl. now apply Forall_insert.
Qed.

Lemma reachable_interleaved (s : state) :
  reachable WITHDRAW_FEE_RATE WITHDRAW_LIMIT_DAILY WITHDRAW_LIMIT_MONTHLY
            ALLOWED_PREDICTION_ASSETS ADMIN_SECRET s ->
  interleaved WITHDRAW_FEE_RATE WITHDRAW_LIMIT_DAILY WITHDRAW_LIMIT_MONTHLY
              ALLOWED_PREDICTION_ASSETS ADMIN_SECRET s.
Proof.
  induction 1; [apply interleaved_initial | now apply interleaved_request].
Qed.

Lemma interleaved_wf (s : state) :
  interleaved WITHDRAW_FEE_RATE WITHDRAW_LIMIT_DAILY WITHDRAW_LIMIT_MONTHLY
              ALLOWED_PREDICTION_ASSETS ADMIN_SECRET s ->
  state_wf s.
Proof.
  induction 1 as [|s pathname e data _ IH | s userId amount _ IH
                  | s now provider asset expiry _ IH
                  | s ref userId d amount _ IH Hamt | s ref provider _ IH].
  - constructor.
  - now apply handleApi_wf.
  - exact IH.
  - now apply create_market_wf.
  - apply place_bet_wf; [|exact IH]. now apply NumFacts.validated_positive.
  - now apply settle_finish_at_wf.
Qed.

Lemma reachable_wf (s : state) :
  reachable WITHDRAW_FEE_RATE WITHDRAW_LIMIT_DAILY WITHDRAW_LIMIT_MONTHLY
            ALLOWED_PREDICTION_ASSETS ADMIN_SECRET s ->
  state_wf s.
Proof. intros H. now apply interleaved_wf, reachable_interleaved. Qed.


End Invariants.

(** ** Settlement *)

Lemma refund_all_credits (bets : list bet) (l : gmap string account) :
  refund_all bets l = apply_credits (credits_of Draw JS.zero bets) l.
Proof.
  revert l. induction bets as [|b bets IH]; intros l; simpl; [reflexivity|].
  apply IH.
Qed.

Lemma pay_winners_credits (d : direction) (perTon : num) (bets : list bet)
    (l : gmap string account) :
  pay_winners (Win d) perTon bets l
  = apply_credits (credits_of (Win d) perTon bets) l.
Proof.
  revert l. induction bets as [|b bets IH]; intros l; [reflexivity|].
  cbn [pay_winners fold_left credits_of List.filter].
  destruct (is_winner (Win d) b); apply IH.
Qed.

(** The ledger after [settleMarket] is the ledger before it with the credits
    of [settle_credits] applied. *)
Lemma settleMarket_credits (provider : option num) (m : market)
    (l : gmap string account) :
  snd (settleMarket provider m l) = apply_credits (settle_credits provider m) l.
Proof.
  unfold settleMarket, settle_credits.
  destruct (m_status m); simpl; [|reflexivity].
  destruct (winner_of _ _) as [|d].
  - apply refund_all_credits.
  - apply pay_winners_credits.
Qed.



Lemma state_eta (s : state) :
  {| ledger := ledger s; markets := markets s; nextMarketId := nextMarketId s;
     nextBetId := nextBetId s; withdrawalLog := withdrawalLog s;
     withdrawQueue := withdrawQueue s |} = s.
Proof. now destruct s. Qed.

Section Finality.

Variable WITHDRAW_FEE_RATE : num.
Variable WITHDRAW_LIMIT_DAILY : num.
Variable WITHDRAW_LIMIT_MONTHLY : num.
Variable ALLOWED_PREDICTION_ASSETS : list string.
Variable ADMIN_SECRET : string.




End Finality.


Lemma inf_times_same (s : bool) (q q' : Q) :
  q == q' -> JS.inf_times s q = JS.inf_times s q'.
Proof.
  intros H. unfold JS.inf_times.
  assert (E1 : Qeq_bool q 0 = Qeq_bool q' 0).
  { destruct (Qeq_bool q 0) eqn:A, (Qeq_bool q' 0) eqn:B; auto.
    - apply Qeq_bool_iff in A. apply NumFacts.Qeq_bool_false in B.
      exfalso. apply B. now rewrite <- H.
    - apply Qeq_bool_iff in B. apply NumFacts.Qeq_bool_false in A.
      exfalso. apply A. now rewrite H. }
  assert (E2 : JS.Qltb 0 q = JS.Qltb 0 q').
  { destruct (JS.Qltb 0 q) eqn:A, (JS.Qltb 0 q') eqn:B; auto.
    - apply NumFacts.Qltb_lt in A. apply NumFacts.Qltb_ge in B. lra.
    - apply NumFacts.Qltb_lt in B. apply NumFacts.Qltb_ge in A. lra. }
  now rewrite E1, E2.
Qed.

#[local] Instance mul_proper : Proper (JS.same ==> JS.same ==> JS.same) JS.mul.
Proof.
  intros x x' Hx y y' Hy.
  destruct x, x', y, y'; simpl in *; try tauto;
    try (rewrite (inf_times_same _ _ _ Hx); reflexivity);
    try (rewrite (inf_times_same _ _ _ Hy); reflexivity).
  now rewrite Hx, Hy.
Qed.

Lemma eqb_same (x y : num) : JS.eqb x y = true -> JS.same x y.
Proof.
  destruct x, y; simpl; try discriminate; auto. apply Qeq_bool_iff.
Qed.

Lemma eqb_zero_not_gt (x : num) :
  JS.eqb x JS.zero = true -> JS.gt x JS.zero = false.
Proof.
  destruct x as [| | |q]; simpl; try discriminate.
  intros H. apply Qeq_bool_iff in H. apply NumFacts.Qltb_ge. lra.
Qed.

(** A credit of [x * 0] adds nothing, whatever [x] is. *)
Lemma mul_zero_orZero (x : num) : JS.orZero (JS.mul x JS.zero) = JS.zero.
Proof.
  destruct x as [| | |q]; try reflexivity.
  unfold JS.orZero, JS.truthy, JS.mul, JS.zero.
  assert (E : Qeq_bool (q * 0) 0 = true) by (apply Qeq_bool_iff; ring).
  now rewrite E.
Qed.

Lemma apply_credits_nothing (cs : list (string * num)) (l : gmap string account) :
  Forall (fun c => JS.orZero (snd c) = JS.zero) cs ->
  forall u, JS.same (getBal (apply_credits cs l) u) (getBal l u).
Proof.
  intros H. revert l. induction H as [|[v a] cs Ha _ IH]; intros l u; simpl.
  - reflexivity.
  - unfold apply_credits in *. simpl. rewrite IH.
    rewrite getBal_credit. simpl in Ha. rewrite Ha.
    destruct (decide (v = u)) as [->|]; [apply NumFacts.add_zero_r | reflexivity].
Qed.

(** C8, as the code has it.  When a market is settled with a directional
    outcome and the winning pool is 0, no balance changes (every credit made
    is a credit of 0), and the recorded [feeCollected] is 2% of the total,
    which is 2% of the losing pool: it is 0 only when the losing pool is
    empty too. *)
Theorem empty_winning_pool_pays_nothing (provider : option num) (m : market)
    (l : gmap string account) (d : direction) :
  m_status m = Open ->
  winner_of (m_strike m) (computeTwapCap provider) = Win d ->
  JS.eqb (pool_of (m_pools m) d) JS.zero = true ->
  (forall u, JS.same (getBal (snd (settleMarket provider m l)) u) (getBal l u))
  /\ m_feeCollected (fst (settleMarket provider m l))
     = Some (JS.mul (JS.add (above (m_pools m)) (below (m_pools m)))
                    (Fin (2 # 100)))
  /\ JS.same (JS.mul (JS.add (above (m_pools m)) (below (m_pools m)))
                     (Fin (2 # 100)))
             (JS.mul (pool_of (m_pools m) (other_side d)) (Fin (2 # 100))).
Proof.
  intros Hopen Hwin Hzero. split; [|split].
  - rewrite settleMarket_credits. apply apply_credits_nothing.
    unfold settle_credits. rewrite Hopen, Hwin.
    unfold credits_of, perTon_of. rewrite (eqb_zero_not_gt _ Hzero).
    apply Forall_map. apply Forall_forall. intros b _. simpl.
    apply mul_zero_orZero.
  - unfold settleMarket. rewrite Hopen. reflexivity.
  - apply eqb_same in Hzero. apply mul_proper; [|reflexivity].
    destruct d; simpl in *.
    + rewrite Hzero. apply NumFacts.add_zero_l.
    + rewrite Hzero. apply NumFacts.add_zero_r.
Qed.

(** C8, as stated, fails: with 30 TON staked on 'below' and the outcome
    'above', the winning pool is 0 and nothing is paid, but the total is 30
    and the recorded fee is 0.6, not 0. *)
Lemma empty_winning_pool_fee_not_zero :
  let r := settleMarket (Some (Fin 1050)) one_sided_market ∅ in
  winner_of (m_strike one_sided_market) (computeTwapCap (Some (Fin 1050)))
    = Win Above
  /\ JS.eqb (pool_of (m_pools one_sided_market) Above) JS.zero = true
  /\ snd r = ∅
  /\ exists fee, m_feeCollected (fst r) = Some fee
       /\ JS.same fee (Fin (6 # 10)) /\ ~ JS.same fee JS.zero.
Proof.
  simpl. repeat split.
  eexists. split; [reflexivity|]. split; [reflexivity | discriminate].
Qed.





(** ** Directional settlement of markets with finite stakes *)










Lemma on_side_Forall (P : bet -> Prop) (d : direction) (bets : list bet) :
  Forall P bets -> Forall P (on_side d bets).
Proof.
  intros H. apply Forall_forall. intros b Hb.
  rewrite Forall_forall in H. apply H.
  apply list_elem_of_In. apply list_elem_of_In in Hb.
  unfold on_side in Hb. now apply List.filter_In in Hb as [Hb _].
Qed.




Lemma credits_of_win (d : direction) (perTon : num) (bets : list bet) :
  credits_of (Win d) perTon bets
  = map (fun b => (b_userId b, JS.mul (b_stakeTon b) perTon)) (on_side d bets).
Proof. reflexivity. Qed.



(** ** Withdrawals *)

Lemma usage_loop_acc (now : Z) (logs : list logEntry) (u : usage) :
  let step := fun u entry =>
    let diff := (now - ts entry)%Z in
    if (diff <? monthMs)%Z then
      let monthlyUsed' := JS.add (monthlyUsed u) (le_amountTon entry) in
      if (diff <? dayMs)%Z
      then {| dailyUsed := JS.add (dailyUsed u) (le_amountTon entry);
              monthlyUsed := monthlyUsed' |}
      else {| dailyUsed := dailyUsed u; monthlyUsed := monthlyUsed' |}
    else u in
  dailyUsed (fold_left step logs u)
  = fold_left JS.add
      (map le_amountTon
         (List.filter (fun entry => (now - ts entry <? dayMs)%Z) logs))
      (dailyUsed u)
  /\ monthlyUsed (fold_left step logs u)
  = fold_left JS.add
      (map le_amountTon
         (List.filter (fun entry => (now - ts entry <? monthMs)%Z) logs))
      (monthlyUsed u).
Proof.
  intros step. revert u. induction logs as [|entry logs IH]; intros u.
  - split; reflexivity.
  - cbn [fold_left List.filter]. destruct (IH (step u entry)) as [IHd IHm].
    rewrite IHd, IHm. unfold step.
    destruct (now - ts entry <? monthMs)%Z eqn:Em;
      destruct (now - ts entry <? dayMs)%Z eqn:Ed; simpl; auto.
    exfalso. apply Z.ltb_lt in Ed. apply Z.ltb_ge in Em.
    unfold monthMs, dayMs in *. lia.
Qed.

(** [getWithdrawUsage] computes the two trailing sums. *)
Lemma getWithdrawUsage_trailing (now : Z) (s : state) (userId : string) :
  dailyUsed (getWithdrawUsage now s userId)
  = trailing_sum dayMs now (user_log s userId)
  /\ monthlyUsed (getWithdrawUsage now s userId)
  = trailing_sum monthMs now (user_log s userId).
Proof.
  unfold getWithdrawUsage, usage_loop, trailing_sum, sum_list, user_log.
  apply (usage_loop_acc now _ {| dailyUsed := JS.zero; monthlyUsed := JS.zero |}).
Qed.

Lemma same_not_gt (x y : num) : JS.same x y -> JS.gt x y = false.
Proof.
  unfold JS.gt. destruct x, y; simpl; try tauto.
  intros H. apply NumFacts.Qltb_ge. lra.
Qed.

Lemma set_ledger_id (s : state) : set_ledger (ledger s) s = s.
Proof. now destruct s. Qed.

Lemma validated (userId to : string) (amt : num) :
  nonempty userId = true -> nonempty to = true -> JS.positive amt ->
  negb (nonempty userId) || negb (nonempty to)
  || negb (JS.truthy amt) || JS.le amt JS.zero = false.
Proof.
  intros -> -> Hp. rewrite (NumFacts.positive_truthy _ Hp). simpl.
  now apply lt_zero_not_le.
Qed.

Section Withdrawals.

Variable WITHDRAW_FEE_RATE : num.
Variable WITHDRAW_LIMIT_DAILY : num.
Variable WITHDRAW_LIMIT_MONTHLY : num.

Abbreviation withdraw :=
  (api_wallet_withdraw WITHDRAW_FEE_RATE WITHDRAW_LIMIT_DAILY
                       WITHDRAW_LIMIT_MONTHLY).

(** C7.  For a withdrawal request that names a user and a destination and
    has a positive amount, with [dailyUsed] the sum of the user's logged
    withdrawals of the trailing 24 hours: the request is refused with
    'Daily withdrawal limit exceeded' exactly when
    [amount + dailyUsed > WITHDRAW_LIMIT_DAILY]; the refusal reports the
    limit, [dailyUsed] and the remaining allowance
    [max(0, limit - dailyUsed)] and changes nothing; a request with
    [amount + dailyUsed] equal to the limit is not refused for the daily
    limit, and goes through when the monthly limit and the balance allow
    it. *)
Theorem daily_limit_boundary (e : env) (data : body) (s : state) :
  nonempty (userId data) = true ->
  nonempty (to data) = true ->
  JS.positive (amountTon data) ->
  let amt := amountTon data in
  let day_sum := trailing_sum dayMs (Date_now e 0%nat) (user_log s (userId data)) in
  let month_sum :=
    trailing_sum monthMs (Date_now e 0%nat) (user_log s (userId data)) in
  let r := withdraw e data s in
  ((exists lim u rem, fst r = R_daily_limit lim u rem)
     <-> JS.gt (JS.add amt day_sum) WITHDRAW_LIMIT_DAILY = true)
  /\ (JS.gt (JS.add amt day_sum) WITHDRAW_LIMIT_DAILY = true ->
      r = (R_daily_limit WITHDRAW_LIMIT_DAILY day_sum
             (JS.max JS.zero (JS.sub WITHDRAW_LIMIT_DAILY day_sum)), s))
  /\ (JS.same (JS.add amt day_sum) WITHDRAW_LIMIT_DAILY ->
      (forall lim u rem, fst r <> R_daily_limit lim u rem)
      /\ (JS.gt (JS.add amt month_sum) WITHDRAW_LIMIT_MONTHLY = false ->
          JS.lt (getBal (ledger s) (userId data)) amt = false ->
          exists requestId feeTon netTon daily monthly',
            fst r = R_withdraw requestId feeTon netTon daily monthly'
            /\ used daily = JS.add day_sum amt
            /\ getBal (ledger (snd r)) (userId data)
               = JS.sub (getBal (ledger s) (userId data)) amt)).
Proof.
  intros Hu Ht Hp. cbv zeta.
  destruct (getWithdrawUsage_trailing (Date_now e 0%nat) s (userId data))
    as [Hd Hm].
  unfold api_wallet_withdraw. rewrite (validated _ _ _ Hu Ht Hp).
  rewrite Hd, Hm.
  set (dused := trailing_sum dayMs (Date_now e 0%nat) (user_log s (userId data))).
  set (mused := trailing_sum monthMs (Date_now e 0%nat) (user_log s (userId data))).
  assert (Hnot : forall (x : response * state),
             (forall lim u rem, fst x <> R_daily_limit lim u rem) ->
             ((exists lim u rem, fst x = R_daily_limit lim u rem) <-> false = true)).
  { intros x Hx. split; [|discriminate].
    intros (lim & u & rem & E). now apply Hx in E. }
  destruct (JS.gt (JS.add (amountTon data) dused) WITHDRAW_LIMIT_DAILY) eqn:Hgt.
  - split; [|split].
    + split; [reflexivity|]. intros _. simpl. eauto.
    + reflexivity.
    + intros Hsame. apply same_not_gt in Hsame. congruence.
  - match goal with
    | |- context [if JS.gt ?a WITHDRAW_LIMIT_MONTHLY then ?x else ?y] =>
        set (rest := if JS.gt a WITHDRAW_LIMIT_MONTHLY then x else y)
    end.
    assert (Hno : forall lim u rem, fst rest <> R_daily_limit lim u rem).
    { intros lim u rem. unfold rest.
      destruct (JS.gt (JS.add (amountTon data) mused) WITHDRAW_LIMIT_MONTHLY);
        [discriminate|].
      destruct (debit _ _ _) as [[err|[]] l']; discriminate. }
    split; [|split].
    + apply Hnot, Hno.
    + discriminate.
    + intros _. split; [apply Hno|].
      unfold rest. intros -> Hbal.
      destruct (debit_cases (userId data) (amountTon data) (ledger s))
        as [[H1 E] | [[H1 [H2 E]] | [H1 [H2 E]]]].
      * apply orZero_le_zero in H1. apply lt_zero_not_le in Hp as Hp'.
        destruct H1 as [H1|H1]; [congruence|]. rewrite H1 in Hp. discriminate.
      * rewrite (NumFacts.orZero_truthy _ (NumFacts.positive_truthy _ Hp)) in H2.
        congruence.
      * rewrite E. simpl. do 5 eexists. split; [reflexivity|].
        split; [reflexivity|].
        rewrite getBal_insert, decide_True by reflexivity. simpl.
        now rewrite (NumFacts.orZero_truthy _ (NumFacts.positive_truthy _ Hp)).
Qed.

(** C10.  A withdrawal request that passes validation and both limit checks
    but asks for more than the user's balance fails with 'Insufficient
    balance' and leaves the whole state as it was: the balance, the
    withdrawal log and the queue are unchanged, so the failed request does
    not count in the user's usage, whenever that is computed. *)
Theorem failed_withdrawal_leaves_no_trace (e : env) (data : body) (s : state) :
  nonempty (userId data) = true ->
  nonempty (to data) = true ->
  JS.positive (amountTon data) ->
  JS.gt (JS.add (amountTon data)
                (dailyUsed (getWithdrawUsage (Date_now e 0%nat) s (userId data))))
        WITHDRAW_LIMIT_DAILY = false ->
  JS.gt (JS.add (amountTon data)
                (monthlyUsed (getWithdrawUsage (Date_now e 0%nat) s (userId data))))
        WITHDRAW_LIMIT_MONTHLY = false ->
  JS.lt (getBal (ledger s) (userId data)) (amountTon data) = true ->
  fst (debit (userId data) (amountTon data) (ledger s)) = inl Insufficient_balance
  /\ withdraw e data s = (R_error "Insufficient balance", s)
  /\ getBal (ledger (snd (withdraw e data s))) (userId data)
     = getBal (ledger s) (userId data)
  /\ withdrawalLog (snd (withdraw e data s)) = withdrawalLog s
  /\ withdrawQueue (snd (withdraw e data s)) = withdrawQueue s
  /\ forall now, getWithdrawUsage now (snd (withdraw e data s)) (userId data)
                 = getWithdrawUsage now s (userId data).
Proof.
  intros Hu Ht Hp Hd Hm Hbal.
  assert (Hdebit : debit (userId data) (amountTon data) (ledger s)
                   = (inl Insufficient_balance, ledger s)).
  { unfold debit.
    rewrite (NumFacts.orZero_truthy _ (NumFacts.positive_truthy _ Hp)).
    now rewrite (lt_zero_not_le _ Hp), Hbal. }
  assert (Hw : withdraw e data s = (R_error "Insufficient balance", s)).
  { unfold api_wallet_withdraw. rewrite (validated _ _ _ Hu Ht Hp).
    rewrite Hd, Hm, Hdebit. simpl. now rewrite set_ledger_id. }
  rewrite Hw, Hdebit. simpl. repeat split.
Qed.

End Withdrawals.

(** ** Completing a withdrawal *)

Lemma find_ref_first {A : Type} (p : A -> bool) (l : list A) (i : nat) (x : A) :
  l !! i = Some x -> p x = true ->
  (forall j y, (j < i)%nat -> l !! j = Some y -> p y = false) ->
  find_ref p l = Some (i, x).
Proof.
  revert i. induction l as [|a l IH]; intros i Hi Hp Hbefore; [discriminate|].
  destruct i as [|i]; simpl in *.
  - injection Hi as ->. now rewrite Hp.
  - rewrite (Hbefore 0%nat a) by (simpl; auto; lia).
    rewrite (IH i Hi Hp); [reflexivity|].
    intros j y Hj Hy. apply (Hbefore (S j) y); [lia | exact Hy].
Qed.

Lemma find_ref_absent {A : Type} (p : A -> bool) (l : list A) :
  Forall (fun x => p x = false) l -> find_ref p l = None.
Proof.
  induction 1 as [|a l Ha _ IH]; simpl; [reflexivity|]. now rewrite Ha, IH.
Qed.

Section Completion.

Variable WITHDRAW_FEE_RATE : num.
Variable WITHDRAW_LIMIT_DAILY : num.
Variable WITHDRAW_LIMIT_MONTHLY : num.
Variable ALLOWED_PREDICTION_ASSETS : list string.
Variable ADMIN_SECRET : string.

Abbreviation process :=
  (handleApi WITHDRAW_FEE_RATE WITHDRAW_LIMIT_DAILY WITHDRAW_LIMIT_MONTHLY
             ALLOWED_PREDICTION_ASSETS ADMIN_SECRET
             "/api/admin/withdrawals/process").



End Completion.


(** ** Scenarios *)

(** The scenario of the specification: after the deposit and the bet the
    balance is 70 and the pools are 30 and 0; settling at index 1050 pays
    29.4 and leaves a balance of 99.4; settling at 1001 is a draw and
    refunds the 30. *)
Example scenario_stake_and_settle :
  markets after_bet = [staked_market]
  /\ getBal (ledger after_bet) "alice" = Fin 70
  /\ JS.same (getBal (ledger (snd (server "/api/prediction/settle"
                                     (at_time 300000 (Some (Fin 1050)))
                                     (settle_request 1) after_bet))) "alice")
             (Fin (994 # 10))
  /\ JS.same (getBal (ledger (snd (server "/api/prediction/settle"
                                     (at_time 300000 (Some (Fin 1001)))
                                     (settle_request 1) after_bet))) "alice")
             (Fin 100).
Proof. vm_compute. repeat split. Qed.

(** C6 is about settlements that run one after the other.  Two settlements
    of one market that overlap (each found the market open before the other
    resumed from its query of the price provider) both pay: alice, who had
    70 TON and a winning stake of 30 TON, ends with 128.8 TON. *)
Remark overlapping_settlements_pay_twice :
  let once := settle_finish_at 0 (Some (Fin 1050)) after_bet in
  let twice := settle_finish_at 0 (Some (Fin 1050)) once in
  JS.same (getBal (ledger once) "alice") (Fin (994 # 10))
  /\ JS.same (getBal (ledger twice) "alice") (Fin (1288 # 10)).
Proof. vm_compute. repeat split. Qed.

(** The scenario of the specification: with 490 of 500 TON used, a request
    for 10 TON goes through and a request for 10.01 TON is refused. *)
Example scenario_daily_limit :
  (exists id feeTon netTon daily monthly,
     fst (server "/api/wallet/withdraw" (at_time 1000 None)
            (withdraw_request "alice" "EQalice" (Fin 10)) near_daily_limit)
     = R_withdraw id feeTon netTon daily monthly
     /\ JS.same feeTon (Fin (1 # 2)) /\ JS.same netTon (Fin (19 # 2)))
  /\ fst (server "/api/wallet/withdraw" (at_time 1000 None)
            (withdraw_request "alice" "EQalice" (Fin (1001 # 100)))
            near_daily_limit)
     = R_daily_limit (Fin 500) (Fin 490) (Fin 10).
Proof.
  split.
  - do 5 eexists. vm_compute. repeat split.
  - vm_compute. reflexivity.
Qed.





(** With 490 of 500 TON used, a request for 10 TON goes through. *)
Lemma daily_limit_boundary_witness :
  exists requestId feeTon netTon daily monthly,
    fst (api_wallet_withdraw (Fin (5 # 100)) (Fin 500) (Fin 3000)
           (at_time 1000 None) (withdraw_request "alice" "EQalice" (Fin 10))
           near_daily_limit)
    = R_withdraw requestId feeTon netTon daily monthly.
Proof.
  destruct (daily_limit_boundary (Fin (5 # 100)) (Fin 500) (Fin 3000)
              (at_time 1000 None) (withdraw_request "alice" "EQalice" (Fin 10))
              near_daily_limit eq_refl eq_refl eq_refl) as (_ & _ & Hedge).
  destruct Hedge as [_ Hok]; [vm_compute; reflexivity|].
  destruct Hok as (id & fee & net & daily & monthly & E & _);
    [vm_compute; reflexivity | vm_compute; reflexivity |].
  now exists id, fee, net, daily, monthly.
Defined.

(** 30 TON on 'below', outcome 'above': the fee recorded is 2% of 30. *)
Lemma empty_winning_pool_pays_nothing_witness :
  m_feeCollected (fst (settleMarket (Some (Fin 1050)) one_sided_market ∅))
  = Some (JS.mul (JS.add (Fin 0) (Fin 30)) (Fin (2 # 100))).
Proof.
  exact (proj1 (proj2 (empty_winning_pool_pays_nothing (Some (Fin 1050))
                         one_sided_market ∅ Above eq_refl eq_refl eq_refl))).
Defined.


(** With a balance of 5 TON, a withdrawal of 10 TON fails and changes
    nothing. *)
Lemma failed_withdrawal_leaves_no_trace_witness :
  api_wallet_withdraw (Fin (5 # 100)) (Fin 500) (Fin 3000) (at_time 1000 None)
    (withdraw_request "alice" "EQalice" (Fin 10)) small_balance
  = (R_error "Insufficient balance", small_balance).
Proof.
  exact (proj1 (proj2 (failed_withdrawal_leaves_no_trace
                         (Fin (5 # 100)) (Fin 500) (Fin 3000)
                         (at_time 1000 None)
                         (withdraw_request "alice" "EQalice" (Fin 10))
                         small_balance
                         eq_refl eq_refl eq_refl eq_refl eq_refl eq_refl))).
Defined.

(** * Further properties *)

(** ** The ledger: round trips and sign of the balances *)


Lemma not_negative_cases (x : num) :
  not_negative x <->
  match x with NaN | PosInf => True | NegInf => False | Fin q => 0 <= q end.
Proof.
  unfold not_negative. destruct x as [| | |q]; simpl; try tauto.
  - split; [discriminate | tauto].
  - apply NumFacts.Qltb_ge.
Qed.

Lemma add_not_negative (x y : num) :
  not_negative x -> not_negative y -> not_negative (JS.add x y).
Proof.
  rewrite !not_negative_cases. destruct x, y; simpl; try tauto. lra.
Qed.

Lemma orZero_not_negative (x : num) :
  not_negative x -> not_negative (JS.orZero x).
Proof.
  intros H. unfold JS.orZero. destruct (JS.truthy x); [assumption|].
  apply not_negative_cases. simpl. lra.
Qed.

Lemma credit_not_negative (u : string) (a : num) (l : gmap string account) :
  not_negative a ->
  (forall v, not_negative (getBal l v)) ->
  forall v, not_negative (getBal (credit u a l) v).
Proof.
  intros Ha Hl v. rewrite getBal_credit. destruct (decide (u = v)); [|apply Hl].
  apply add_not_negative; [apply Hl | now apply orZero_not_negative].
Qed.

Lemma debit_not_negative (u : string) (a : num) (l : gmap string account) :
  (forall v, not_negative (getBal l v)) ->
  forall v, not_negative (getBal (snd (debit u a l)) v).
Proof.
  intros Hl v.
  destruct (debit_cases u a l) as [[H1 E] | [[H1 [H2 E]] | [H1 [H2 E]]]];
    rewrite E; simpl; try apply Hl.
  rewrite getBal_insert. destruct (decide (u = v)); [|apply Hl]. simpl.
  destruct (orZero_accepted _ H1) as [Ea Pa]. rewrite Ea in *.
  apply not_negative_cases.
  destruct (getBal l u) as [| | |c], a as [| | |q]; simpl in *;
    try discriminate; try tauto.
  apply NumFacts.Qltb_ge in H2. lra.
Qed.

Lemma positive_not_negative (x : num) : JS.positive x -> not_negative x.
Proof.
  unfold JS.positive. rewrite not_negative_cases.
  destruct x as [| | |q]; simpl; try discriminate; auto.
  intros H. apply NumFacts.Qltb_lt in H. lra.
Qed.

Lemma apply_credits_not_negative (cs : list (string * num))
    (l : gmap string account) :
  Forall (fun c => not_negative (snd c)) cs ->
  (forall v, not_negative (getBal l v)) ->
  forall v, not_negative (getBal (apply_credits cs l) v).
Proof.
  intros H. revert l. induction H as [|c cs Hc _ IH]; intros l Hl; [exact Hl|].
  unfold apply_credits in *. simpl. apply IH.
  now apply credit_not_negative.
Qed.

(** A pool of a market that keeps the invariant is at least 0, possibly
    infinite. *)
Lemma good_cases (x : num) :
  JS.le JS.zero x = true <->
  match x with Fin q => 0 <= q | PosInf => True | _ => False end.
Proof.
  destruct x as [| | |q]; simpl; try tauto.
  - split; [discriminate | tauto].
  - split; [discriminate | tauto].
  - apply Qle_bool_iff.
Qed.

Lemma add_good (x y : num) :
  JS.le JS.zero x = true -> JS.le JS.zero y = true ->
  JS.le JS.zero (JS.add x y) = true.
Proof.
  rewrite !good_cases. destruct x, y; simpl; try tauto. lra.
Qed.

Lemma positive_good (x : num) : JS.positive x -> JS.le JS.zero x = true.
Proof.
  unfold JS.positive. rewrite good_cases.
  destruct x as [| | |q]; simpl; try discriminate; auto.
  intros H. apply NumFacts.Qltb_lt in H. lra.
Qed.

Lemma same_good (x y : num) :
  JS.same x y -> JS.le JS.zero y = true -> JS.le JS.zero x = true.
Proof.
  rewrite !good_cases. destruct x, y; simpl; try tauto. intros ->. tauto.
Qed.

Lemma stakes_good (bets : list bet) :
  Forall (fun b => JS.positive (b_stakeTon b)) bets ->
  JS.le JS.zero (stakes bets) = true.
Proof.
  induction bets as [|b bets IH] using rev_ind; intros H.
  - apply good_cases. simpl. lra.
  - apply Forall_app in H as [H1 H2]. rewrite stakes_snoc.
    apply add_good; [now apply IH|].
    apply positive_good. now apply Forall_cons in H2 as [H2 _].
Qed.

Lemma wf_pool_good (m : market) (d : direction) :
  market_wf m -> JS.le JS.zero (pool_of (m_pools m) d) = true.
Proof.
  intros [Ha Hb Hs _].
  assert (Hside : forall d', JS.le JS.zero (stakes (on_side d' (m_bets m))) = true).
  { intros d'. apply stakes_good. now apply on_side_Forall. }
  destruct d; simpl; eapply same_good; eauto.
Qed.

(** [perTon] is NaN or a finite number that is at least 0. *)
Lemma perTon_shape (m : market) (d : direction) :
  market_wf m ->
  match perTon_of m d with
  | NaN => True
  | Fin p => 0 <= p
  | _ => False
  end.
Proof.
  intros Hwf.
  pose proof (wf_pool_good m Above Hwf) as HA.
  pose proof (wf_pool_good m Below Hwf) as HB.
  pose proof (wf_pool_good m d Hwf) as HW.
  unfold perTon_of. simpl in HA, HB.
  apply good_cases in HA. apply good_cases in HB. apply good_cases in HW.
  destruct (pool_of (m_pools m) d) as [| | |w]; try tauto;
    destruct (above (m_pools m)) as [| | |a]; try tauto;
    destruct (below (m_pools m)) as [| | |b]; try tauto;
    unfold JS.gt, JS.lt, JS.zero, JS.add, JS.mul, JS.sub, JS.neg, JS.div,
      JS.inf_times; simpl; auto; try lra.
  all: destruct (JS.Qltb 0 w) eqn:Hw; try exact I; try lra.
  apply NumFacts.Qltb_lt in Hw.
  assert (Ew : Qeq_bool w 0 = false) by (apply NumFacts.Qeq_bool_false; lra).
  rewrite Ew.
  apply Qle_shift_div_l; [assumption|]. lra.
Qed.

Lemma mul_positive_not_negative (stake perTon : num) :
  JS.positive stake ->
  match perTon with NaN => True | Fin p => 0 <= p | _ => False end ->
  not_negative (JS.mul stake perTon).
Proof.
  unfold JS.positive. rewrite not_negative_cases.
  destruct stake as [| | |q], perTon as [| | |p]; simpl;
    try discriminate; try tauto.
  - intros _ Hp. unfold JS.inf_times.
    destruct (Qeq_bool p 0) eqn:E; [exact I|].
    assert (Hlt : JS.Qltb 0 p = true).
    { apply NumFacts.Qltb_lt. apply NumFacts.Qeq_bool_false in E.
      destruct (Qle_lt_or_eq _ _ Hp) as [H|H]; [assumption|].
      exfalso. apply E. now symmetry. }
    now rewrite Hlt.
  - intros Hq Hp. apply NumFacts.Qltb_lt in Hq. apply Qmult_le_0_compat; lra.
Qed.

Lemma settle_finish_credits (provider : option num) (m : market)
    (l : gmap string account) :
  snd (settle_finish provider m l)
  = apply_credits
      (match winner_of (m_strike m) (computeTwapCap provider) with
       | Draw => credits_of Draw JS.zero (m_bets m)
       | Win d => credits_of (Win d) (perTon_of m d) (m_bets m)
       end) l.
Proof.
  unfold settle_finish. simpl.
  destruct (winner_of _ _) as [|d].
  - apply refund_all_credits.
  - apply pay_winners_credits.
Qed.

Lemma settle_finish_not_negative (provider : option num) (m : market)
    (l : gmap string account) :
  market_wf m ->
  (forall v, not_negative (getBal l v)) ->
  forall v, not_negative (getBal (snd (settle_finish provider m l)) v).
Proof.
  intros Hwf Hl. rewrite settle_finish_credits.
  apply apply_credits_not_negative; [|exact Hl].
  pose proof (wf_stakes m Hwf) as Hs.
  destruct (winner_of _ _) as [|d].
  - unfold credits_of. apply Forall_map. eapply Forall_impl; [exact Hs|].
    intros b Hb. simpl. now apply positive_not_negative.
  - rewrite credits_of_win. apply Forall_map.
    eapply Forall_impl; [apply on_side_Forall; exact Hs|].
    intros b Hb. simpl. apply mul_positive_not_negative; [exact Hb|].
    now apply perTon_shape.
Qed.

Lemma settleMarket_not_negative (provider : option num) (m : market)
    (l : gmap string account) :
  market_wf m ->
  (forall v, not_negative (getBal l v)) ->
  forall v, not_negative (getBal (snd (settleMarket provider m l)) v).
Proof.
  intros Hwf Hl. unfold settleMarket.
  destruct (negb (status_eqb (m_status m) Open)); [exact Hl|].
  now apply settle_finish_not_negative.
Qed.

Section Balances.

Variable WITHDRAW_FEE_RATE : num.
Variable WITHDRAW_LIMIT_DAILY : num.
Variable WITHDRAW_LIMIT_MONTHLY : num.
Variable ALLOWED_PREDICTION_ASSETS : list string.
Variable ADMIN_SECRET : string.

Lemma api_prediction_open_ledger (e : env) (data : body) (s : state) :
  ledger (snd (api_prediction_open ALLOWED_PREDICTION_ASSETS e data s))
  = ledger s
  \/ ledger (snd (api_prediction_open ALLOWED_PREDICTION_ASSETS e data s))
     = snd (debit (userId data) (amount data) (ledger s)).
Proof.
  unfold api_prediction_open.
  destruct (negb (nonempty (userId data))); [now left|].
  destruct (_ || _); [now left|].
  destruct (parse_direction (direction_ data)) as [d|]; [|now left].
  destruct (negb (JS.truthy (amount data)) || JS.le (amount data) JS.zero);
    [now left|].
  destruct (expiryMinutes data <=? 0)%Z; [now left|].
  destruct (debit (userId data) (amount data) (ledger s)) as [[err|u] l] eqn:D;
    [now right|].
  destruct (getOrCreateMarket _ _ _ _ _) as [[ref m] s2] eqn:G.
  apply getOrCreateMarket_spec in G as (Hl & _).
  right. simpl. exact Hl.
Qed.

Lemma handleApi_not_negative (pathname : string) (e : env) (data : body)
    (s : state) :
  state_wf s ->
  (forall v, not_negative (getBal (ledger s) v)) ->
  forall v, not_negative
    (getBal (ledger (snd (handleApi WITHDRAW_FEE_RATE WITHDRAW_LIMIT_DAILY
                            WITHDRAW_LIMIT_MONTHLY ALLOWED_PREDICTION_ASSETS
                            ADMIN_SECRET pathname e data s))) v).
Proof.
  intros Hwf Hl. apply handleApi_cases.
  - destruct (api_prediction_open_ledger e data s) as [-> | ->];
      [exact Hl | now apply debit_not_negative].
  - unfold api_prediction_settle.
    destruct (marketId data =? 0)%Z; [exact Hl|].
    destruct (find_ref _ (markets s)) as [[ref m]|] eqn:F; [|exact Hl].
    destruct (Date_now e 0%nat <? m_expiry m)%Z; [exact Hl|].
    apply find_ref_Some in F as (Hm & _).
    pose proof (settleMarket_not_negative (provider_answer e) m (ledger s)
                  (Forall_lookup_1 _ _ _ _ Hwf Hm) Hl) as Hs.
    now destruct (settleMarket _ m (ledger s)) as [m' l].
  - now rewrite (proj2 (api_admin_withdrawals_process_markets _ e data s)).
  - unfold api_wallet_deposit_webhook.
    destruct (negb (nonempty (userId data))); [exact Hl|]. simpl.
    destruct (negb (JS.truthy (amountTon data)) || JS.le (amountTon data) JS.zero)
      eqn:Hamt; [exact Hl|]. simpl.
    apply credit_not_negative; [|exact Hl].
    now apply positive_not_negative, NumFacts.validated_positive.
  - unfold api_wallet_withdraw.
    destruct (_ || _); [exact Hl|].
    destruct (JS.gt _ WITHDRAW_LIMIT_DAILY); [exact Hl|].
    destruct (JS.gt _ WITHDRAW_LIMIT_MONTHLY); [exact Hl|].
    pose proof (debit_not_negative (userId data) (amountTon data) (ledger s) Hl)
      as Hd.
    now destruct (debit _ _ _) as [[err|u] l].
  - exact Hl.
Qed.

(** No balance is ever negative: in every state the server goes through,
    requests overlapping or not, [balance < 0] is false for every user. *)
Theorem balances_never_negative (s : state) (userId : string) :
  interleaved WITHDRAW_FEE_RATE WITHDRAW_LIMIT_DAILY WITHDRAW_LIMIT_MONTHLY
              ALLOWED_PREDICTION_ASSETS ADMIN_SECRET s ->
  JS.lt (getBal (ledger s) userId) JS.zero = false.
Proof.
  intros H. revert userId.
  induction H as [|s pathname e data Hi IH | s uid amount Hi IH
                  | s now provider asset expiry Hi IH
                  | s ref uid d amount Hi IH Hamt | s ref provider Hi IH].
  - intros v. reflexivity.
  - apply handleApi_not_negative; [|exact IH].
    now apply (interleaved_wf WITHDRAW_FEE_RATE WITHDRAW_LIMIT_DAILY
                 WITHDRAW_LIMIT_MONTHLY ALLOWED_PREDICTION_ASSETS ADMIN_SECRET).
  - simpl. now apply debit_not_negative.
  - exact IH.
  - exact IH.
  - pose proof (interleaved_wf _ _ _ _ _ _ Hi) as Hwf.
    unfold settle_finish_at.
    destruct (markets s !! ref) as [m|] eqn:Hm; [|exact IH].
    pose proof (settle_finish_not_negative provider m (ledger s)
                  (Forall_lookup_1 _ _ _ _ Hwf Hm) IH) as Hs.
    now destruct (settle_finish provider m (ledger s)) as [m' l].
Qed.

End Balances.

(** ** The market registry *)

Section Registry.

Variable WITHDRAW_FEE_RATE : num.
Variable WITHDRAW_LIMIT_DAILY : num.
Variable WITHDRAW_LIMIT_MONTHLY : num.
Variable ALLOWED_PREDICTION_ASSETS : list string.
Variable ADMIN_SECRET : string.

Abbreviation serve :=
  (handleApi WITHDRAW_FEE_RATE WITHDRAW_LIMIT_DAILY WITHDRAW_LIMIT_MONTHLY
             ALLOWED_PREDICTION_ASSETS ADMIN_SECRET).

Abbreviation visited :=
  (interleaved WITHDRAW_FEE_RATE WITHDRAW_LIMIT_DAILY WITHDRAW_LIMIT_MONTHLY
               ALLOWED_PREDICTION_ASSETS ADMIN_SECRET).

Lemma api_prediction_open_registry (e : env) (data : body) (s : state) :
  let s' := snd (api_prediction_open ALLOWED_PREDICTION_ASSETS e data s) in
  registry_step s (markets s', nextMarketId s').
Proof.
  cbv zeta. unfold api_prediction_open.
  destruct (negb (nonempty (userId data))); [apply registry_same|].
  destruct (_ || _); [apply registry_same|].
  destruct (parse_direction (direction_ data)) as [d|]; [|apply registry_same].
  destruct (negb (JS.truthy (amount data)) || JS.le (amount data) JS.zero)
    eqn:Hamt; [apply registry_same|].
  destruct (expiryMinutes data <=? 0)%Z; [apply registry_same|].
  destruct (debit (userId data) (amount data) (ledger s)) as [[err|u] l];
    [simpl; apply registry_same|].
  unfold getOrCreateMarket. simpl.
  destruct (find_ref _ (markets s)) as [[i x]|]; simpl.
  - apply (registry_then s (markets s) (nextMarketId s) i
             {| b_id := nextBetId s; b_userId := userId data;
                b_direction := d; b_stakeTon := amount data |});
      [apply registry_same | now apply NumFacts.validated_positive].
  - match goal with
    | |- registry_step s (alter (add_bet ?b) ?r (_ ++ [?m]), _) =>
        apply (registry_then s (markets s ++ [m]) (nextMarketId s + 1)%Z r b)
    end; [|now apply NumFacts.validated_positive].
    apply (registry_create s (Date_now e 0%nat) (provider_answer e)
             (asset data)
             (Date_now e 0%nat + expiryMinutes data * 60 * 1000)%Z).
Qed.

Lemma api_prediction_settle_registry (e : env) (data : body) (s : state) :
  let s' := snd (api_prediction_settle e data s) in
  registry_step s (markets s', nextMarketId s').
Proof.
  cbv zeta. unfold api_prediction_settle.
  destruct (marketId data =? 0)%Z; [apply registry_same|].
  destruct (find_ref _ (markets s)) as [[ref m]|] eqn:F; [|apply registry_same].
  destruct (Date_now e 0%nat <? m_expiry m)%Z; [apply registry_same|].
  apply find_ref_Some in F as (Hm & _).
  unfold settleMarket.
  destruct (negb (status_eqb (m_status m) Open)); simpl.
  - rewrite list_insert_id by assumption. apply registry_same.
  - exact (registry_settle s ref m (provider_answer e) (ledger s) Hm).
Qed.

Lemma serve_registry (pathname : string) (e : env) (data : body) (s : state) :
  let s' := snd (serve pathname e data s) in
  registry_step s (markets s', nextMarketId s').
Proof.
  apply (handleApi_cases WITHDRAW_FEE_RATE WITHDRAW_LIMIT_DAILY
           WITHDRAW_LIMIT_MONTHLY ALLOWED_PREDICTION_ASSETS ADMIN_SECRET
           (fun r => registry_step s (markets (snd r), nextMarketId (snd r)))).
  - apply api_prediction_open_registry.
  - apply api_prediction_settle_registry.
  - unfold api_admin_withdrawals_process.
    destruct (_ || _); [apply registry_same|].
    destruct (find_ref _ _) as [[idx entry]|]; [|apply registry_same].
    destruct (w_status entry); simpl; apply registry_same.
  - unfold api_wallet_deposit_webhook.
    destruct (_ || _); simpl; apply registry_same.
  - unfold api_wallet_withdraw.
    destruct (_ || _); [apply registry_same|].
    destruct (JS.gt _ WITHDRAW_LIMIT_DAILY); [apply registry_same|].
    destruct (JS.gt _ WITHDRAW_LIMIT_MONTHLY); [apply registry_same|].
    destruct (debit _ _ _) as [[err|u] l]; simpl; apply registry_same.
  - apply registry_same.
Qed.

(** Every piece of code that touches the registry is a registry step. *)
Lemma visited_registry (P : list market * Z -> Prop) :
  P ([], 1%Z) ->
  (forall s r, P (markets s, nextMarketId s) -> registry_step s r -> P r) ->
  forall s, visited s -> P (markets s, nextMarketId s).
Proof.
  intros Hinit Hstep s H.
  induction H as [|s pathname e data Hi IH | s uid amount Hi IH
                  | s now provider asset expiry Hi IH
                  | s ref uid d amount Hi IH Hamt | s ref provider Hi IH].
  - exact Hinit.
  - apply (Hstep s); [exact IH | apply serve_registry].
  - exact IH.
  - apply (Hstep s); [exact IH|]. apply registry_create.
  - apply (Hstep s); [exact IH|]. simpl.
    apply (registry_then s (markets s) (nextMarketId s) ref
             {| b_id := nextBetId s; b_userId := uid;
                b_direction := d; b_stakeTon := amount |});
      [apply registry_same | now apply NumFacts.validated_positive].
  - unfold settle_finish_at.
    destruct (markets s !! ref) as [m|] eqn:Hm; [|exact IH].
    pose proof (registry_settle s ref m provider (ledger s) Hm) as R.
    destruct (settle_finish provider m (ledger s)) as [m' l]. simpl.
    apply (Hstep s); [exact IH | exact R].
Qed.

Lemma registry_step_ids (s : state) (r : list market * Z) :
  (nextMarketId s = Z.of_nat (length (markets s)) + 1)%Z ->
  (forall i m, markets s !! i = Some m -> m_id m = (Z.of_nat i + 1)%Z) ->
  registry_step s r ->
  (snd r = Z.of_nat (length (fst r)) + 1)%Z
  /\ forall i m, fst r !! i = Some m -> m_id m = (Z.of_nat i + 1)%Z.
Proof.
  intros Hn Hid H.
  induction H as [|now provider asset expiry | ms n ref b H IH Hb
                  | ref m provider l Hm]; simpl.
  - now split.
  - split; [rewrite length_app; simpl; lia|].
    intros i m Hi. apply lookup_app_Some in Hi as [Hi | [Hlen Hi]];
      [now apply Hid|].
    destruct (i - length (markets s))%nat as [|k] eqn:Ek; [|discriminate].
    injection Hi as <-. simpl. lia.
  - destruct IH as [IHn IHid]. simpl in *. split.
    + now rewrite length_alter.
    + intros i m Hi. rewrite list_lookup_alter in Hi.
      destruct (decide (ref = i)) as [->|Hne]; [|now apply IHid].
      destruct (ms !! i) as [m0|] eqn:E; [|discriminate].
      injection Hi as <-. simpl. now apply IHid.
  - split; [now rewrite length_insert|].
    intros i m0 Hi. destruct (decide (ref = i)) as [->|Hne].
    + rewrite list_lookup_insert_eq in Hi by now apply lookup_lt_Some in Hm.
      injection Hi as <-. simpl. now apply Hid.
    + rewrite list_lookup_insert_ne in Hi by assumption. now apply Hid.
Qed.

(** Market ids are the positions in the registry: in every state the server
    goes through, the market at index [i] has id [i + 1] and the next id is
    one more than the number of markets; so no two markets share an id, and
    looking a market up by its id finds that market. *)
Theorem market_ids_are_positions (s : state) :
  visited s ->
  (nextMarketId s = Z.of_nat (length (markets s)) + 1)%Z
  /\ (forall i m, markets s !! i = Some m -> m_id m = (Z.of_nat i + 1)%Z)
  /\ (forall i j m m', markets s !! i = Some m -> markets s !! j = Some m' ->
        m_id m = m_id m' -> i = j)
  /\ (forall i m, markets s !! i = Some m ->
        find_ref (fun x => (m_id x =? m_id m)%Z) (markets s) = Some (i, m)).
Proof.
  intros H.
  assert (Hinv : (nextMarketId s = Z.of_nat (length (markets s)) + 1)%Z
                 /\ forall i m, markets s !! i = Some m ->
                                m_id m = (Z.of_nat i + 1)%Z).
  { apply (visited_registry
             (fun r => (snd r = Z.of_nat (length (fst r)) + 1)%Z
                       /\ forall i m, fst r !! i = Some m ->
                                      m_id m = (Z.of_nat i + 1)%Z));
      [| |exact H].
    - split; [reflexivity|]. intros i m Hi. discriminate.
    - intros s0 r [Hn Hid] Hr. now apply (registry_step_ids s0). }
  destruct Hinv as [Hn Hid].
  split; [exact Hn|]. split; [exact Hid|]. split.
  - intros i j m m' Hi Hj E.
    apply Hid in Hi. apply Hid in Hj. lia.
  - intros i m Hi. apply find_ref_first; [exact Hi | apply Z.eqb_refl|].
    intros j y Hj Hy. apply Z.eqb_neq.
    apply Hid in Hi. apply Hid in Hy. lia.
Qed.

Lemma registry_step_consistent (s : state) (r : list market * Z) :
  Forall market_consistent (markets s) ->
  registry_step s r -> Forall market_consistent (fst r).
Proof.
  intros Hs H.
  induction H as [|now provider asset expiry | ms n ref b H IH Hb
                  | ref m provider l Hm]; simpl.
  - exact Hs.
  - apply Forall_app. split; [exact Hs|]. constructor; [|constructor].
    split; [apply computeTwapCap_finite|]. split; [constructor|]. now split.
  - simpl in IH. apply Forall_alter; [exact IH|].
    intros m _ (Hk & Hb' & Hst). split; [exact Hk|]. split; [|exact Hst].
    simpl. apply Forall_app. split; [exact Hb'|]. now constructor.
  - apply Forall_insert; [exact Hs|].
    destruct (Forall_lookup_1 _ _ _ _ Hs Hm) as (Hk & Hb & _).
    split; [exact Hk|]. split; [exact Hb|]. simpl.
    eexists _, _. split; [reflexivity|].
    split; [apply computeTwapCap_finite | reflexivity].
Qed.

(** In every state the server goes through, every market has a finite strike
    and only bets with a positive stake; an open market has no [settleCap]
    and no [feeCollected], a settled market has both, and its [settleCap] is
    a finite number. *)
Theorem markets_are_consistent (s : state) (m : market) :
  visited s -> m ∈ markets s -> market_consistent m.
Proof.
  intros H Hm.
  assert (Hall : Forall market_consistent (markets s)).
  { apply (visited_registry (fun r => Forall market_consistent (fst r)));
      [constructor | | exact H].
    intros s0 r Hs0 Hr. now apply (registry_step_consistent s0). }
  rewrite Forall_forall in Hall. now apply Hall.
Qed.


End Registry.

(** ** What the handlers of the prediction routes answer *)

Lemma getOrCreateMarket_asset (now : Z) (provider : option num)
    (asset : string) (expiryMinutes : Z) (s s2 : state) (ref : nat)
    (m : market) :
  getOrCreateMarket now provider asset expiryMinutes s = ((ref, m), s2) ->
  m_asset m = asset /\ m_expiry m = (now + expiryMinutes * 60 * 1000)%Z
  /\ nextBetId s2 = nextBetId s.
Proof.
  unfold getOrCreateMarket.
  destruct (find_ref _ (markets s)) as [[i x]|] eqn:F.
  - intros [= <- <- <-]. apply find_ref_Some in F as (_ & Hp & _).
    apply andb_true_iff in Hp as [Hp _]. apply andb_true_iff in Hp as [H1 H2].
    apply String.eqb_eq in H1. apply Z.eqb_eq in H2. auto.
  - intros [= <- <- <-]. simpl. auto.
Qed.

Section Predictions.

Variable ALLOWED_PREDICTION_ASSETS : list string.

Abbreviation open_bet := (api_prediction_open ALLOWED_PREDICTION_ASSETS).

(** A request to open a bet either fails and leaves the whole state as it
    was, or succeeds: then the asset is an allowed one, the stake is
    positive and was debited from the balance of the user (and from no other
    balance), and the bet, with the next bet id, is the last bet of an open
    market of that asset and expiry, whose id is the one answered; the
    withdrawal log and queue are untouched. *)
Theorem open_bet_outcomes (e : env) (data : body) (s : state) :
  let r := open_bet e data s in
  (forall message, fst r = R_error message -> snd r = s)
  /\ (forall b mid, fst r = R_bet b mid ->
        existsb (String.eqb (asset data)) ALLOWED_PREDICTION_ASSETS = true
        /\ JS.positive (amount data)
        /\ b_id b = nextBetId s /\ b_userId b = userId data
        /\ b_stakeTon b = amount data
        /\ parse_direction (direction_ data) = Some (b_direction b)
        /\ nextBetId (snd r) = (nextBetId s + 1)%Z
        /\ getBal (ledger (snd r)) (userId data)
           = JS.sub (getBal (ledger s) (userId data)) (amount data)
        /\ (forall other, other <> userId data ->
              getBal (ledger (snd r)) other = getBal (ledger s) other)
        /\ withdrawalLog (snd r) = withdrawalLog s
        /\ withdrawQueue (snd r) = withdrawQueue s
        /\ exists ref m,
             markets (snd r) !! ref = Some m /\ m_id m = mid
             /\ m_asset m = asset data
             /\ m_expiry m
                = (Date_now e 0%nat + expiryMinutes data * 60 * 1000)%Z
             /\ m_status m = Open /\ last (m_bets m) = Some b).
Proof.
  cbv zeta. unfold api_prediction_open.
  destruct (negb (nonempty (userId data)));
    [split; [reflexivity | discriminate]|].
  destruct (negb (nonempty (asset data))) eqn:Hasset; simpl;
    [split; [reflexivity | discriminate]|].
  destruct (existsb (String.eqb (asset data)) ALLOWED_PREDICTION_ASSETS)
    eqn:Hallowed; simpl; [|split; [reflexivity | discriminate]].
  destruct (parse_direction (direction_ data)) as [d|] eqn:Hdir;
    [|split; [reflexivity | discriminate]].
  destruct (negb (JS.truthy (amount data)) || JS.le (amount data) JS.zero)
    eqn:Hamt; [split; [reflexivity | discriminate]|].
  destruct (expiryMinutes data <=? 0)%Z; [split; [reflexivity | discriminate]|].
  pose proof (NumFacts.validated_positive _ Hamt) as Hpos.
  destruct (debit_cases (userId data) (amount data) (ledger s))
    as [[H1 E] | [[H1 [H2 E]] | [H1 [H2 E]]]]; rewrite E.
  - split; [intros _ _; apply set_ledger_id | discriminate].
  - split; [intros _ _; apply set_ledger_id | discriminate].
  - destruct (getOrCreateMarket _ _ _ _ _) as [[ref m] s2] eqn:G.
    pose proof (getOrCreateMarket_asset _ _ _ _ _ _ _ _ G) as (Ha & He & Hb).
    apply getOrCreateMarket_spec in G as (Hl & Hlog & Hq & Href & Hopen & _).
    simpl in *. split; [discriminate|].
    intros b mid [= <- <-]. simpl.
    rewrite (NumFacts.orZero_truthy _ (NumFacts.positive_truthy _ Hpos)) in *.
    rewrite Hl, Hlog, Hq, Hb.
    repeat (split; [try reflexivity; try assumption|]).
    + now rewrite getBal_insert, decide_True.
    + intros other Hne. rewrite getBal_insert, decide_False; congruence.
    + exists ref, (add_bet {| b_id := nextBetId s; b_userId := userId data;
                              b_direction := d; b_stakeTon := amount data |} m).
      rewrite list_lookup_alter_eq, Href. simpl.
      repeat split; auto. apply last_snoc.
Qed.

(** A request to settle either fails and leaves the whole state as it was
    (no id given, no market with the id, or the market has not expired), or
    answers with the market of that id, which has expired and is now
    settled and stored in the registry; no other market changes. *)
Theorem settle_request_outcomes (e : env) (data : body) (s : state) :
  let r := api_prediction_settle e data s in
  (forall message, fst r = R_error message -> snd r = s)
  /\ (forall m', fst r = R_market m' ->
        m_id m' = marketId data /\ m_status m' = Settled
        /\ (m_expiry m' <= Date_now e 0%nat)%Z
        /\ exists ref m,
             markets s !! ref = Some m /\ markets (snd r) !! ref = Some m'
             /\ m_bets m' = m_bets m /\ m_pools m' = m_pools m
             /\ forall other, other <> ref ->
                  markets (snd r) !! other = markets s !! other).
Proof.
  cbv zeta. unfold api_prediction_settle.
  destruct (marketId data =? 0)%Z; [split; [reflexivity | discriminate]|].
  destruct (find_ref _ (markets s)) as [[ref m]|] eqn:F;
    [|split; [reflexivity | discriminate]].
  destruct (Date_now e 0%nat <? m_expiry m)%Z eqn:Hexp;
    [split; [reflexivity | discriminate]|].
  apply find_ref_Some in F as (Href & Hid & _). apply Z.eqb_eq in Hid.
  apply Z.ltb_ge in Hexp.
  assert (Hkeep : let m' := fst (settleMarket (provider_answer e) m (ledger s)) in
                  m_id m' = m_id m /\ m_expiry m' = m_expiry m
                  /\ m_bets m' = m_bets m /\ m_pools m' = m_pools m
                  /\ m_status m' = Settled).
  { unfold settleMarket, settle_finish.
    destruct (m_status m) eqn:Est; simpl; auto. }
  destruct (settleMarket _ m (ledger s)) as [m' l]. simpl in *.
  destruct Hkeep as (Hi & He & Hb & Hp & Hst).
  split; [discriminate|]. intros ? [= <-].
  split; [congruence|]. split; [exact Hst|]. split; [lia|].
  exists ref, m. split; [exact Href|]. split.
  - apply list_lookup_insert_eq. now apply lookup_lt_Some in Href.
  - split; [exact Hb|]. split; [exact Hp|].
    intros other Hne. now apply list_lookup_insert_ne.
Qed.

End Predictions.

(** ** Deposits and withdrawals *)

(** A deposit is refused, with nothing changed, exactly when no user is
    named or the amount is NaN or at most 0.  Otherwise the amount is added
    to the balance of the user, the answer carries the new balance (what
    /api/wallet/balance then reports), and nothing else changes. *)
Theorem deposit_outcomes (data : body) (s : state) :
  let r := api_wallet_deposit_webhook data s in
  let invalid := userId data = ""
                 \/ amountTon data = NaN
                 \/ JS.le (amountTon data) JS.zero = true in
  (invalid -> r = (R_error "Invalid deposit", s))
  /\ (~ invalid ->
      fst r = R_balance (getBal (ledger (snd r)) (userId data))
      /\ api_wallet_balance (userId data) (snd r)
         = inr (getBal (ledger (snd r)) (userId data))
      /\ getBal (ledger (snd r)) (userId data)
         = JS.add (getBal (ledger s) (userId data)) (amountTon data)
      /\ (forall other, other <> userId data ->
            getBal (ledger (snd r)) other = getBal (ledger s) other)
      /\ markets (snd r) = markets s
      /\ withdrawalLog (snd r) = withdrawalLog s
      /\ withdrawQueue (snd r) = withdrawQueue s).
Proof.
  cbv zeta. unfold api_wallet_deposit_webhook, api_wallet_balance.
  destruct (nonempty (userId data)) eqn:Hu; simpl.
  - assert (Hne : userId data <> "").
    { unfold nonempty in Hu. apply negb_true_iff in Hu.
      now apply String.eqb_neq in Hu. }
    destruct (negb (JS.truthy (amountTon data)) || JS.le (amountTon data) JS.zero)
      eqn:Hamt.
    + split; [reflexivity|]. intros Hvalid. exfalso. apply Hvalid.
      apply orb_true_iff in Hamt as [Ht | Hle]; [|auto].
      right. apply negb_true_iff in Ht.
      destruct (amountTon data) as [| | |q]; try discriminate; auto.
      right. simpl in *. apply negb_false_iff in Ht.
      apply Qeq_bool_iff in Ht. apply Qle_bool_iff. lra.
    + pose proof (NumFacts.validated_positive _ Hamt) as Hpos. split.
      * intros [H | [H | H]]; [contradiction| |].
        -- rewrite H in Hpos. discriminate.
        -- apply lt_zero_not_le in Hpos. congruence.
      * intros _. simpl.
        rewrite !getBal_credit, decide_True by reflexivity.
        rewrite (NumFacts.orZero_truthy _ (NumFacts.positive_truthy _ Hpos)).
        repeat split. intros other Ho.
        rewrite getBal_credit, decide_False; congruence.
  - assert (He : userId data = "").
    { unfold nonempty in Hu. apply negb_false_iff in Hu.
      now apply String.eqb_eq in Hu. }
    split; [reflexivity|]. intros Hvalid. exfalso. apply Hvalid. now left.
Qed.

Lemma gt_same_l (x y L : num) : JS.same x y -> JS.gt x L = JS.gt y L.
Proof.
  unfold JS.gt. destruct x, y, L; simpl; try tauto.
  intros H. destruct (JS.Qltb q1 q) eqn:A, (JS.Qltb q1 q0) eqn:B; auto.
  - apply NumFacts.Qltb_lt in A. apply NumFacts.Qltb_ge in B. lra.
  - apply NumFacts.Qltb_lt in B. apply NumFacts.Qltb_ge in A. lra.
Qed.

Lemma trailing_sum_snoc (window now : Z) (logs : list logEntry)
    (entry : logEntry) :
  (now - ts entry < window)%Z ->
  trailing_sum window now (logs ++ [entry])
  = JS.add (trailing_sum window now logs) (le_amountTon entry).
Proof.
  intros H. unfold trailing_sum. rewrite List.filter_app. simpl.
  apply Z.ltb_lt in H. rewrite H. rewrite map_app. simpl.
  apply sum_list_snoc.
Qed.

Lemma user_log_insert (s : state) (u v : string) (logs : list logEntry)
    (l : gmap string account) :
  user_log {| ledger := l; markets := markets s;
              nextMarketId := nextMarketId s; nextBetId := nextBetId s;
              withdrawalLog := <[u := logs]> (withdrawalLog s);
              withdrawQueue := withdrawQueue s |} v
  = if decide (u = v) then logs else user_log s v.
Proof.
  unfold user_log. simpl. rewrite lookup_insert.
  now destruct (decide (u = v)).
Qed.

Section Payouts.

Variable WITHDRAW_FEE_RATE : num.
Variable WITHDRAW_LIMIT_DAILY : num.
Variable WITHDRAW_LIMIT_MONTHLY : num.

Abbreviation withdraw :=
  (api_wallet_withdraw WITHDRAW_FEE_RATE WITHDRAW_LIMIT_DAILY
                       WITHDRAW_LIMIT_MONTHLY).

(** The state and the answer of a withdrawal that goes through. *)
Lemma withdrawal_accepted (e : env) (data : body) (s : state)
    (requestId : string) (feeTon netTon : num) (daily monthly : limits) :
  fst (withdraw e data s) = R_withdraw requestId feeTon netTon daily monthly ->
  let amt := amountTon data in
  let uid := userId data in
  let u := getWithdrawUsage (Date_now e 0%nat) s uid in
  let entry := {| w_id := requestId; w_userId := uid; w_amountTon := amt;
                  w_feeTon := feeTon; w_netTon := netTon; w_to := to data;
                  w_status := Pending; w_requestedAt := Date_now e 1%nat;
                  w_txHash := None; w_completedAt := None;
                  w_processedAt := None |} in
  JS.positive amt /\ nonempty uid = true /\ nonempty (to data) = true
  /\ JS.gt (JS.add amt (dailyUsed u)) WITHDRAW_LIMIT_DAILY = false
  /\ JS.gt (JS.add amt (monthlyUsed u)) WITHDRAW_LIMIT_MONTHLY = false
  /\ JS.lt (getBal (ledger s) uid) amt = false
  /\ requestId = ("wd_" +:+ toString16 (Date_now e 2%nat))%string
  /\ feeTon = JS.mul amt WITHDRAW_FEE_RATE
  /\ netTon = JS.sub amt feeTon
  /\ used daily = JS.add (dailyUsed u) amt
  /\ used monthly = JS.add (monthlyUsed u) amt
  /\ snd (withdraw e data s)
     = {| ledger := <[uid := {| balanceTon :=
                                  JS.sub (getBal (ledger s) uid) amt |}]>
                      (ledger s);
          markets := markets s; nextMarketId := nextMarketId s;
          nextBetId := nextBetId s;
          withdrawalLog :=
            <[uid := user_log s uid
                     ++ [{| ts := Date_now e 1%nat; le_amountTon := amt |}]]>
              (withdrawalLog s);
          withdrawQueue := withdrawQueue s ++ [entry] |}.
Proof.
  cbv zeta. unfold api_wallet_withdraw.
  destruct (nonempty (userId data)) eqn:Hu; [|discriminate].
  destruct (nonempty (to data)) eqn:Ht; [|discriminate]. simpl.
  destruct (negb (JS.truthy (amountTon data)) || JS.le (amountTon data) JS.zero)
    eqn:Hamt; [discriminate|].
  pose proof (NumFacts.validated_positive _ Hamt) as Hpos.
  destruct (JS.gt _ WITHDRAW_LIMIT_DAILY) eqn:Hd; [discriminate|].
  destruct (JS.gt _ WITHDRAW_LIMIT_MONTHLY) eqn:Hm; [discriminate|].
  destruct (debit_cases (userId data) (amountTon data) (ledger s))
    as [[H1 E] | [[H1 [H2 E]] | [H1 [H2 E]]]]; rewrite E; try discriminate.
  rewrite (NumFacts.orZero_truthy _ (NumFacts.positive_truthy _ Hpos)) in *.
  simpl. intros [= <- <- <- <- <-]. simpl. repeat split; auto.
Qed.


(** After a withdrawal that goes through, the usage of the user computed at
    the instant of the limit check (the clock not having gone back by a day
    in between) is the usage the answer reports, for the day and for the
    month, and neither exceeds its limit. *)
Theorem usage_after_withdrawal (e : env) (data : body) (s : state)
    (requestId : string) (feeTon netTon : num) (daily monthly : limits) :
  fst (withdraw e data s) = R_withdraw requestId feeTon netTon daily monthly ->
  (Date_now e 0%nat - Date_now e 1%nat < dayMs)%Z ->
  let after := getWithdrawUsage (Date_now e 0%nat) (snd (withdraw e data s))
                                (userId data) in
  dailyUsed after = used daily
  /\ monthlyUsed after = used monthly
  /\ dailyUsed after
     = JS.add (dailyUsed (getWithdrawUsage (Date_now e 0%nat) s (userId data)))
              (amountTon data)
  /\ JS.gt (dailyUsed after) WITHDRAW_LIMIT_DAILY = false
  /\ JS.gt (monthlyUsed after) WITHDRAW_LIMIT_MONTHLY = false.
Proof.
  intros H Hclock. cbv zeta.
  destruct (withdrawal_accepted e data s _ _ _ _ _ H)
    as (Hpos & Hu & Ht & Hd & Hm & Hbal & Hid & Hfee & Hnet & Hud & Hum & Hs).
  destruct (getWithdrawUsage_trailing (Date_now e 0%nat)
              (snd (withdraw e data s)) (userId data)) as [Ed Em].
  destruct (getWithdrawUsage_trailing (Date_now e 0%nat) s (userId data))
    as [Ed0 Em0].
  assert (Hlog : user_log (snd (withdraw e data s)) (userId data)
                 = user_log s (userId data)
                   ++ [{| ts := Date_now e 1%nat;
                          le_amountTon := amountTon data |}]).
  { rewrite Hs. unfold user_log. simpl. now rewrite lookup_insert_eq. }
  rewrite Hlog in Ed, Em.
  rewrite trailing_sum_snoc in Ed by exact Hclock.
  rewrite trailing_sum_snoc in Em
    by (simpl; unfold monthMs, dayMs in *; lia).
  simpl in Ed, Em. rewrite <- Ed0 in Ed. rewrite <- Em0 in Em.
  rewrite Ed, Em, Hud, Hum.
  split; [reflexivity|]. split; [reflexivity|]. split; [reflexivity|].
  split.
  - rewrite <- Hd. apply gt_same_l, NumFacts.add_comm.
  - rewrite <- Hm. apply gt_same_l, NumFacts.add_comm.
Qed.

End Payouts.



Section Allowance.

Variable WITHDRAW_FEE_RATE : num.
Variable WITHDRAW_LIMIT_DAILY : num.
Variable WITHDRAW_LIMIT_MONTHLY : num.


End Allowance.

(** ** The withdrawal queue over time *)

Lemma same_request_refl (w : withdrawal) : same_request w w.
Proof. repeat split. Qed.

Lemma queue_extends_refl (q : list withdrawal) : queue_extends q q.
Proof. intros j w Hj. exists w. repeat split; auto. Qed.

Lemma queue_extends_trans (q q' q'' : list withdrawal) :
  queue_extends q q' -> queue_extends q' q'' -> queue_extends q q''.
Proof.
  intros H1 H2 j w Hj.
  destruct (H1 j w Hj) as (w' & Hj' & Hsame & Hdone & Hshadow).
  destruct (H2 j w' Hj') as (w'' & Hj'' & Hsame' & Hdone' & Hshadow').
  exists w''. split; [exact Hj''|].
  destruct Hsame as (A1 & A2 & A3 & A4 & A5 & A6 & A7).
  destruct Hsame' as (B1 & B2 & B3 & B4 & B5 & B6 & B7).
  split; [repeat split; congruence|]. split.
  - intros Hc. rewrite (Hdone Hc) in *. now apply Hdone'.
  - intros Hs. rewrite (Hshadow Hs) in *. apply Hshadow'.
    destruct Hs as (i & w0 & Hi & Hw0 & Hid).
    destruct (H1 i w0 Hw0) as (w0' & Hw0' & (C1 & _) & _).
    exists i, w0'. repeat split; auto. congruence.
Qed.

Lemma queue_extends_app (q : list withdrawal) (entry : withdrawal) :
  queue_extends q (q ++ [entry]).
Proof.
  intros j w Hj. exists w. split.
  - rewrite lookup_app_l; [exact Hj | now apply lookup_lt_Some in Hj].
  - repeat split; auto.
Qed.

Lemma queue_extends_complete (q : list withdrawal) (idx : nat)
    (entry entry' : withdrawal) (wid : string) :
  first_with_id q wid idx entry -> w_status entry = Pending ->
  same_request entry entry' ->
  queue_extends q (<[idx := entry']> q).
Proof.
  intros (Hidx & Hid & Hfirst) Hpending Hsame j w Hj.
  destruct (decide (idx = j)) as [->|Hne].
  - rewrite Hidx in Hj. injection Hj as <-. exists entry'. split.
    + apply list_lookup_insert_eq. now apply lookup_lt_Some in Hidx.
    + split; [exact Hsame|]. split; [congruence|].
      intros (i & w0 & Hi & Hw0 & Hid0). exfalso.
      apply (Hfirst i w0 Hi Hw0). congruence.
  - exists w. split; [now rewrite list_lookup_insert_ne|].
    repeat split; auto.
Qed.

Lemma nonempty_true (x : string) : nonempty x = true <-> x <> "".
Proof.
  unfold nonempty. rewrite negb_true_iff. apply String.eqb_neq.
Qed.

Section Queue.

Variable WITHDRAW_FEE_RATE : num.
Variable WITHDRAW_LIMIT_DAILY : num.
Variable WITHDRAW_LIMIT_MONTHLY : num.
Variable ALLOWED_PREDICTION_ASSETS : list string.
Variable ADMIN_SECRET : string.

Abbreviation serve :=
  (handleApi WITHDRAW_FEE_RATE WITHDRAW_LIMIT_DAILY WITHDRAW_LIMIT_MONTHLY
             ALLOWED_PREDICTION_ASSETS ADMIN_SECRET).

Abbreviation visited :=
  (interleaved WITHDRAW_FEE_RATE WITHDRAW_LIMIT_DAILY WITHDRAW_LIMIT_MONTHLY
               ALLOWED_PREDICTION_ASSETS ADMIN_SECRET).

Lemma api_prediction_open_queue (e : env) (data : body) (s : state) :
  let s' := snd (api_prediction_open ALLOWED_PREDICTION_ASSETS e data s) in
  withdrawQueue s' = withdrawQueue s /\ withdrawalLog s' = withdrawalLog s.
Proof.
  cbv zeta. unfold api_prediction_open.
  destruct (negb (nonempty (userId data))); [auto|].
  destruct (_ || _); [auto|].
  destruct (parse_direction (direction_ data)) as [d|]; [|auto].
  destruct (negb (JS.truthy (amount data)) || JS.le (amount data) JS.zero);
    [auto|].
  destruct (expiryMinutes data <=? 0)%Z; [auto|].
  destruct (debit (userId data) (amount data) (ledger s)) as [[err|u] l];
    [auto|].
  destruct (getOrCreateMarket _ _ _ _ _) as [[ref m] s2] eqn:G.
  apply getOrCreateMarket_spec in G as (_ & Hlog & Hq & _). simpl in *. auto.
Qed.

Lemma api_prediction_settle_queue (e : env) (data : body) (s : state) :
  let s' := snd (api_prediction_settle e data s) in
  withdrawQueue s' = withdrawQueue s /\ withdrawalLog s' = withdrawalLog s.
Proof.
  cbv zeta. unfold api_prediction_settle.
  destruct (marketId data =? 0)%Z; [auto|].
  destruct (find_ref _ (markets s)) as [[ref m]|]; [|auto].
  destruct (Date_now e 0%nat <? m_expiry m)%Z; [auto|].
  now destruct (settleMarket _ m (ledger s)) as [m' l].
Qed.

Lemma serve_queue (pathname : string) (e : env) (data : body) (s : state) :
  let s' := snd (serve pathname e data s) in
  queue_step WITHDRAW_FEE_RATE s (has_secret ADMIN_SECRET data)
             (withdrawQueue s', withdrawalLog s').
Proof.
  apply (handleApi_cases WITHDRAW_FEE_RATE WITHDRAW_LIMIT_DAILY
           WITHDRAW_LIMIT_MONTHLY ALLOWED_PREDICTION_ASSETS ADMIN_SECRET
           (fun r => queue_step WITHDRAW_FEE_RATE s (has_secret ADMIN_SECRET data)
                       (withdrawQueue (snd r), withdrawalLog (snd r)))).
  - destruct (api_prediction_open_queue e data s) as [-> ->].
    apply queue_same.
  - destruct (api_prediction_settle_queue e data s) as [-> ->].
    apply queue_same.
  - unfold api_admin_withdrawals_process, has_secret.
    destruct (nonempty ADMIN_SECRET); simpl; [|apply queue_same].
    destruct (String.eqb (secret data) ADMIN_SECRET); simpl; [|apply queue_same].
    destruct (find_ref _ _) as [[idx entry]|] eqn:F; [|apply queue_same].
    apply find_ref_Some in F as (Hidx & Hid & Hfirst).
    apply String.eqb_eq in Hid.
    destruct (w_status entry) eqn:Hst; simpl; [|apply queue_same].
    apply (queue_complete WITHDRAW_FEE_RATE s true idx entry
             (Date_now e 0%nat)
             (if nonempty (txHash data) then Some (txHash data) else None));
      [reflexivity | | exact Hst].
    split; [exact Hidx|]. split; [reflexivity|].
    intros j w Hj Hw. rewrite Hid. apply String.eqb_neq. eauto.
  - unfold api_wallet_deposit_webhook.
    destruct (_ || _); simpl; apply queue_same.
  - unfold api_wallet_withdraw.
    destruct (nonempty (userId data)) eqn:Hu; [|apply queue_same].
    destruct (nonempty (to data)) eqn:Ht; [|apply queue_same]. simpl.
    destruct (negb (JS.truthy (amountTon data)) || JS.le (amountTon data) JS.zero)
      eqn:Hamt; [apply queue_same|].
    destruct (JS.gt _ WITHDRAW_LIMIT_DAILY); [apply queue_same|].
    destruct (JS.gt _ WITHDRAW_LIMIT_MONTHLY); [apply queue_same|].
    destruct (debit _ _ _) as [[err|u] l]; simpl; [apply queue_same|].
    apply (queue_push WITHDRAW_FEE_RATE s (has_secret ADMIN_SECRET data) (userId data)
             (to data) (amountTon data) (Date_now e 1%nat) (Date_now e 2%nat)).
    + now apply NumFacts.validated_positive.
    + now apply nonempty_true.
    + now apply nonempty_true.
  - apply queue_same.
Qed.

Lemma queue_step_extends (auth : bool) (s : state)
    (r : list withdrawal * gmap string (list logEntry)) :
  queue_step WITHDRAW_FEE_RATE s auth r ->
  queue_extends (withdrawQueue s) (fst r)
  /\ (auth = false ->
      forall j w, withdrawQueue s !! j = Some w -> fst r !! j = Some w).
Proof.
  intros [|uid dest amt t t' Hp Hu Hd | idx entry t h Ha Hfirst Hst]; simpl.
  - split; [apply queue_extends_refl | auto].
  - split; [apply queue_extends_app|].
    intros _ j w Hj. rewrite lookup_app_l; [exact Hj|].
    now apply lookup_lt_Some in Hj.
  - split; [|intros; congruence].
    eapply queue_extends_complete; eauto. repeat split.
Qed.

(** A request never removes, moves or rewrites what was asked in a queued
    withdrawal, and never changes a completed one; and without the admin
    secret (or when the server has none) it changes no queued withdrawal at
    all. *)
Theorem queue_only_grows (pathname : string) (e : env) (data : body)
    (s : state) :
  let queue' := withdrawQueue (snd (serve pathname e data s)) in
  (forall j w, withdrawQueue s !! j = Some w ->
     exists w', queue' !! j = Some w' /\ same_request w w'
                /\ (w_status w = Completed -> w' = w))
  /\ (length (withdrawQueue s) <= length queue')%nat
  /\ ((ADMIN_SECRET = "" \/ secret data <> ADMIN_SECRET) ->
      forall j w, withdrawQueue s !! j = Some w -> queue' !! j = Some w).
Proof.
  cbv zeta.
  destruct (queue_step_extends _ _ _ (serve_queue pathname e data s))
    as [Hext Hauth]. simpl in *.
  split; [|split].
  - intros j w Hj. destruct (Hext j w Hj) as (w' & H1 & H2 & H3 & _).
    now exists w'.
  - destruct (le_lt_dec (length (withdrawQueue s))
                (length (withdrawQueue (snd (serve pathname e data s)))))
      as [H|H]; [exact H|]. exfalso.
    destruct (lookup_lt_is_Some_2 (withdrawQueue s)
                (length (withdrawQueue (snd (serve pathname e data s)))) H)
      as [w Hw].
    destruct (Hext _ w Hw) as (w' & Hw' & _).
    apply lookup_lt_Some in Hw'. lia.
  - intros Hno. apply Hauth. unfold has_secret.
    destruct Hno as [-> | Hne]; [reflexivity|].
    apply String.eqb_neq in Hne. rewrite Hne. apply andb_false_r.
Qed.

Lemma run_extends (requests : list (string * env * body)) (s : state) :
  queue_extends
    (withdrawQueue s)
    (withdrawQueue (run WITHDRAW_FEE_RATE WITHDRAW_LIMIT_DAILY
                      WITHDRAW_LIMIT_MONTHLY ALLOWED_PREDICTION_ASSETS
                      ADMIN_SECRET requests s)).
Proof.
  revert s. induction requests as [|[[pathname e] data] requests IH]; intros s.
  - apply queue_extends_refl.
  - simpl. eapply queue_extends_trans; [|apply IH].
    apply (queue_step_extends _ _ _ (serve_queue pathname e data s)).
Qed.

(** The id of a request is made of the clock alone, and completion looks for
    the first entry with the id.  So a queued request that has an earlier
    request with the same id is never completed: whatever requests follow,
    with or without the admin secret, it stays in the queue exactly as it
    is. *)
Theorem shadowed_request_never_completes
    (requests : list (string * env * body)) (s : state) (i j : nat)
    (first second : withdrawal) :
  (i < j)%nat ->
  withdrawQueue s !! i = Some first ->
  withdrawQueue s !! j = Some second ->
  w_id first = w_id second ->
  withdrawQueue (run WITHDRAW_FEE_RATE WITHDRAW_LIMIT_DAILY
                   WITHDRAW_LIMIT_MONTHLY ALLOWED_PREDICTION_ASSETS
                   ADMIN_SECRET requests s) !! j = Some second.
Proof.
  intros Hij Hi Hj Hid.
  destruct (run_extends requests s j second Hj) as (w' & Hw' & _ & _ & Hsh).
  rewrite Hw'. f_equal. apply Hsh. now exists i, first.
Qed.

(** Two withdrawals that go through with the same reading of the clock for
    their id are queued under the same id. *)
Lemma same_clock_same_id (e e' : env) (data data' : body) (s s' : state)
    (id id' : string) (fee fee' net net' : num) (d d' m m' : limits) :
  fst (api_wallet_withdraw WITHDRAW_FEE_RATE WITHDRAW_LIMIT_DAILY
         WITHDRAW_LIMIT_MONTHLY e data s) = R_withdraw id fee net d m ->
  fst (api_wallet_withdraw WITHDRAW_FEE_RATE WITHDRAW_LIMIT_DAILY
         WITHDRAW_LIMIT_MONTHLY e' data' s') = R_withdraw id' fee' net' d' m' ->
  Date_now e 2%nat = Date_now e' 2%nat -> id = id'.
Proof.
  intros H H' Hclock.
  apply withdrawal_accepted in H as (_ & _ & _ & _ & _ & _ & -> & _).
  apply withdrawal_accepted in H' as (_ & _ & _ & _ & _ & _ & -> & _).
  now rewrite Hclock.
Qed.

Lemma visited_queue (P : list withdrawal * gmap string (list logEntry) -> Prop) :
  P ([], ∅) ->
  (forall s auth r, visited s -> P (withdrawQueue s, withdrawalLog s) ->
     queue_step WITHDRAW_FEE_RATE s auth r -> P r) ->
  forall s, visited s -> P (withdrawQueue s, withdrawalLog s).
Proof.
  intros Hinit Hstep s H.
  induction H as [|s pathname e data Hi IH | s uid amount Hi IH
                  | s now provider asset expiry Hi IH
                  | s ref uid d amount Hi IH Hamt | s ref provider Hi IH].
  - exact Hinit.
  - apply (Hstep s (has_secret ADMIN_SECRET data)); [exact Hi | exact IH|].
    apply serve_queue.
  - exact IH.
  - exact IH.
  - exact IH.
  - unfold settle_finish_at.
    destruct (markets s !! ref) as [m|]; [|exact IH].
    now destruct (settle_finish provider m (ledger s)) as [m' l].
Qed.



Lemma map_filter_insert {A B : Type} (f : A -> B) (p : A -> bool)
    (l : list A) (i : nat) (x y : A) :
  l !! i = Some x -> p y = p x -> f y = f x ->
  map f (List.filter p (<[i := y]> l)) = map f (List.filter p l).
Proof.
  revert i. induction l as [|a l IH]; intros i Hi Hp Hf; [discriminate|].
  destruct i as [|i]; simpl in *.
  - injection Hi as ->. rewrite Hp. destruct (p x); simpl; now rewrite ?Hf.
  - destruct (p a); simpl; now rewrite (IH i Hi Hp Hf).
Qed.

(** In every state the server goes through, the withdrawal log of each user
    lists, in order, the times and amounts of exactly the requests of that
    user in the queue: no request is queued without its log entry, and no
    usage is logged without a queued request. *)
Theorem log_and_queue_agree (s : state) (userId : string) :
  visited s ->
  map (fun w => (w_requestedAt w, w_amountTon w)) (user_requests s userId)
  = map (fun entry => (ts entry, le_amountTon entry)) (user_log s userId).
Proof.
  intros H. revert userId.
  change (forall u,
    map (fun w => (w_requestedAt w, w_amountTon w))
        (List.filter (fun w => String.eqb (w_userId w) u)
                     (fst (withdrawQueue s, withdrawalLog s)))
    = map (fun entry => (ts entry, le_amountTon entry))
          (default [] (snd (withdrawQueue s, withdrawalLog s) !! u))).
  apply (visited_queue
           (fun r => forall u,
              map (fun w => (w_requestedAt w, w_amountTon w))
                  (List.filter (fun w => String.eqb (w_userId w) u) (fst r))
              = map (fun entry => (ts entry, le_amountTon entry))
                    (default [] (snd r !! u)))); [| |exact H].
  - intros u. reflexivity.
  - intros s0 auth r _ Hs0
           [|uid dest amt t t' Hp Hu Hd | idx entry t h Ha Hfirst Hst] u;
      simpl in *.
    + apply Hs0.
    + rewrite List.filter_app, map_app, lookup_insert. simpl.
      destruct (decide (uid = u)) as [->|Hne].
      * rewrite String.eqb_refl. simpl. unfold user_log.
        rewrite map_app. simpl. now rewrite Hs0.
      * apply String.eqb_neq in Hne. rewrite Hne. simpl.
        rewrite app_nil_r. apply Hs0.
    + destruct Hfirst as (Hidx & _).
      rewrite (map_filter_insert _ _ _ idx entry (completed entry t h) Hidx);
        [apply Hs0 | reflexivity | reflexivity].
Qed.

Lemma find_ref_insert {A : Type} (p : A -> bool) (l : list A) (i : nat)
    (x y : A) :
  find_ref p l = Some (i, x) -> p y = true ->
  find_ref p (<[i := y]> l) = Some (i, y).
Proof.
  revert i. induction l as [|a l IH]; intros i; simpl; [discriminate|].
  destruct (p a) eqn:E.
  - intros [= <- <-] Hy. simpl. now rewrite Hy.
  - destruct (find_ref p l) as [[k z]|] eqn:F; [|discriminate].
    intros [= <- <-] Hy. simpl. rewrite E. now rewrite (IH k eq_refl Hy).
Qed.

(** Completing a withdrawal is idempotent: repeating the request, at any
    later time, gives the same answer as the first time and changes nothing
    more. *)
Theorem completion_is_idempotent (e e' : env) (data : body) (s : state) :
  let first := serve "/api/admin/withdrawals/process" e data s in
  serve "/api/admin/withdrawals/process" e' data (snd first) = first.
Proof.
  cbv zeta. change (serve "/api/admin/withdrawals/process") with
    (api_admin_withdrawals_process ADMIN_SECRET).
  unfold api_admin_withdrawals_process.
  destruct (negb (nonempty ADMIN_SECRET)
            || negb (String.eqb (secret data) ADMIN_SECRET)) eqn:Hs; simpl;
    [reflexivity|].
  destruct (find_ref _ (withdrawQueue s)) as [[idx entry]|] eqn:F; simpl.
  - destruct (w_status entry) eqn:Hst; simpl.
    + match goal with
      | |- context [<[idx := ?y]> (withdrawQueue s)] => set (entry' := y)
      end.
      assert (Hp : String.eqb (w_id entry') (withdrawal_id data) = true).
      { apply find_ref_Some in F as (_ & Hp & _). exact Hp. }
      rewrite (find_ref_insert _ _ idx entry entry' F Hp). reflexivity.
    + now rewrite F, Hst.
  - now rewrite F.
Qed.

(** A request whose body is empty or is not JSON reaches the handler as
    [{}] ([parseBody]).  On each of the routes that change the ledger, the
    markets or the withdrawals it is answered with an error (403 on the
    admin route), and it changes nothing. *)
Theorem malformed_body_changes_nothing (pathname : string) (e : env)
    (s : state) :
  snd (serve pathname e empty_body s) = s
  /\ ((exists message, fst (serve pathname e empty_body s) = R_error message)
      \/ (exists message,
            fst (serve pathname e empty_body s) = R_forbidden message)
      \/ fst (serve pathname e empty_body s) = R_unhandled).
Proof.
  apply (handleApi_cases WITHDRAW_FEE_RATE WITHDRAW_LIMIT_DAILY
           WITHDRAW_LIMIT_MONTHLY ALLOWED_PREDICTION_ASSETS ADMIN_SECRET
           (fun r => snd r = s
                     /\ ((exists message, fst r = R_error message)
                         \/ (exists message, fst r = R_forbidden message)
                         \/ fst r = R_unhandled))).
  - split; [reflexivity | left; eexists; reflexivity].
  - split; [reflexivity | left; eexists; reflexivity].
  - unfold api_admin_withdrawals_process.
    assert (Hs : negb (nonempty ADMIN_SECRET)
                 || negb (String.eqb (secret empty_body) ADMIN_SECRET) = true).
    { destruct (nonempty ADMIN_SECRET) eqn:Hn; [|reflexivity].
      apply nonempty_true in Hn. apply orb_true_iff. right.
      apply negb_true_iff.
      apply (proj2 (String.eqb_neq "" ADMIN_SECRET)). congruence. }
    rewrite Hs. split; [reflexivity | right; left; eexists; reflexivity].
  - split; [reflexivity | left; eexists; reflexivity].
  - split; [reflexivity | left; eexists; reflexivity].
  - split; [reflexivity | right; right; reflexivity].
Qed.

Lemma trailing_sum_skip (window now : Z) (logs : list logEntry)
    (entry : logEntry) :
  (window <= now - ts entry)%Z ->
  trailing_sum window now (logs ++ [entry]) = trailing_sum window now logs.
Proof.
  intros H. unfold trailing_sum. rewrite List.filter_app. simpl.
  apply Z.ltb_ge in H. rewrite H. now rewrite app_nil_r.
Qed.

Lemma trailing_sums_ordered (now : Z) (logs : list logEntry) :
  Forall (fun entry => JS.positive (le_amountTon entry)) logs ->
  JS.le JS.zero (trailing_sum dayMs now logs) = true
  /\ JS.le (trailing_sum dayMs now logs) (trailing_sum monthMs now logs)
     = true.
Proof.
  induction logs as [|entry logs IH] using rev_ind; intros Hall.
  - split; reflexivity.
  - apply Forall_app in Hall as [Hall Hentry].
    apply Forall_cons in Hentry as [Hentry _].
    destruct (IH Hall) as [H0 Hle]. clear IH Hall.
    assert (Hwin : (dayMs < monthMs)%Z) by (unfold monthMs, dayMs; lia).
    destruct (Z_lt_le_dec (now - ts entry) dayMs) as [Hd | Hd].
    + rewrite !trailing_sum_snoc by lia.
      destruct (trailing_sum dayMs now logs) as [| | |d],
               (trailing_sum monthMs now logs) as [| | |m],
               (le_amountTon entry) as [| | |a];
        try discriminate; try (split; reflexivity).
      all: unfold JS.positive, JS.le, JS.lt, JS.add, JS.zero in *.
      all: try apply NumFacts.Qltb_lt in Hentry.
      all: try apply Qle_bool_iff in H0; try apply Qle_bool_iff in Hle.
      all: split; try reflexivity; apply Qle_bool_iff; lra.
    + rewrite (trailing_sum_skip dayMs) by lia. split; [exact H0|].
      destruct (Z_lt_le_dec (now - ts entry) monthMs) as [Hm | Hm].
      * rewrite trailing_sum_snoc by lia.
        destruct (trailing_sum dayMs now logs) as [| | |d],
                 (trailing_sum monthMs now logs) as [| | |m],
                 (le_amountTon entry) as [| | |a];
          try discriminate; try reflexivity.
        all: unfold JS.positive, JS.le, JS.lt, JS.add, JS.zero in *.
        all: try apply NumFacts.Qltb_lt in Hentry.
        all: try apply Qle_bool_iff in H0; try apply Qle_bool_iff in Hle.
        all: try reflexivity; apply Qle_bool_iff; lra.
      * now rewrite trailing_sum_skip by lia.
Qed.

(** In every state the server goes through, and at every time, what
    [getWithdrawUsage] reports for a user is not negative (and not [NaN]),
    and the usage of the last day is at most the usage of the last 30
    days. *)
Theorem daily_usage_within_monthly (s : state) (now : Z) (userId : string) :
  visited s ->
  JS.le JS.zero (dailyUsed (getWithdrawUsage now s userId)) = true
  /\ JS.le (dailyUsed (getWithdrawUsage now s userId))
           (monthlyUsed (getWithdrawUsage now s userId)) = true.
Proof.
  intros H.
  destruct (getWithdrawUsage_trailing now s userId) as [-> ->].
  apply trailing_sums_ordered. revert userId.
  change (forall u,
    Forall (fun entry => JS.positive (le_amountTon entry))
           (default [] (snd (withdrawQueue s, withdrawalLog s) !! u))).
  apply (visited_queue
           (fun r => forall u,
              Forall (fun entry => JS.positive (le_amountTon entry))
                     (default [] (snd r !! u)))); [| |exact H].
  - intros u. unfold snd. rewrite lookup_empty. constructor.
  - intros s0 auth r _ Hs0
           [|uid dest amt t t' Hp Hu Hd | idx entry t h Ha Hfirst Hst] u;
      simpl in *.
    + apply Hs0.
    + rewrite lookup_insert.
      destruct (decide (uid = u)) as [->|Hne]; [|apply Hs0].
      simpl. apply Forall_app. split; [apply Hs0|].
      constructor; [exact Hp | constructor].
    + apply Hs0.
Qed.

End Queue.

(** ** Perpetual positions *)

Lemma has_id_own (p q : position) :
  has_id (Fin (inject_Z (p_id p))) q = true <-> p_id q = p_id p.
Proof.
  unfold has_id. simpl. rewrite Qeq_bool_iff. unfold Qeq. simpl. lia.
Qed.

Lemma ids_below_next (positions : list position) (i : nat) (p : position) :
  ids_increase positions -> positions !! i = Some p ->
  (p_id p < next_position_id positions)%Z.
Proof.
  intros Hinc Hi. unfold next_position_id. rewrite last_lookup.
  assert (Hlen : (i < length positions)%nat) by (eapply lookup_lt_Some; eauto).
  destruct (positions !! pred (length positions)) as [q|] eqn:Hq.
  - destruct (decide (i = pred (length positions))) as [->|Hne].
    + rewrite Hi in Hq. injection Hq as <-. lia.
    + assert (p_id p < p_id q)%Z; [|lia].
      apply (Hinc i (pred (length positions))); auto. lia.
  - apply lookup_ge_None in Hq. lia.
Qed.

Lemma api_perp_open_increase (now : Z) (asset side : string)
    (leverage amount : num) (positions : list position) :
  ids_increase positions ->
  ids_increase (snd (api_perp_open now asset side leverage amount positions)).
Proof.
  intros Hinc i j p q Hij Hp Hq. simpl in Hp, Hq.
  assert (Hj : (j < length positions \/ j = length positions)%nat).
  { apply lookup_lt_Some in Hq. rewrite length_app in Hq. simpl in Hq. lia. }
  destruct Hj as [Hj | ->].
  - rewrite lookup_app_l in Hp, Hq by lia. exact (Hinc i j p q Hij Hp Hq).
  - rewrite lookup_app_l in Hp by lia.
    rewrite lookup_app_r, Nat.sub_diag in Hq by lia.
    injection Hq as <-. simpl. eapply ids_below_next; eauto.
Qed.

Lemma delete_increase (k : nat) (positions : list position) :
  ids_increase positions -> ids_increase (delete k positions).
Proof.
  intros Hinc i j p q Hij. rewrite !list_lookup_delete.
  repeat case_decide; intros Hp Hq;
    (eapply (Hinc _ _ p q); [|exact Hp|exact Hq]); lia.
Qed.

Lemma api_perp_close_increase (id : num) (positions : list position) :
  ids_increase positions -> ids_increase (snd (api_perp_close id positions)).
Proof.
  intros Hinc. unfold api_perp_close.
  destruct (find_ref _ positions) as [[index p]|]; simpl; [|exact Hinc].
  now apply delete_increase.
Qed.

Lemma perp_serve_increase (requests : list perp_request)
    (positions : list position) :
  ids_increase positions ->
  ids_increase (fold_left perp_serve requests positions).
Proof.
  revert positions. induction requests as [|r rs IH]; intros ps Hinc;
    [exact Hinc|].
  simpl. apply IH. destruct r; simpl.
  - now apply api_perp_open_increase.
  - now apply api_perp_close_increase.
Qed.

(** Whatever positions are opened and closed, the ids of the open positions
    increase strictly along the array: no two open positions share an id. *)
Theorem position_ids_increase (requests : list perp_request) :
  ids_increase (perp_run requests)
  /\ NoDup (map p_id (perp_run requests)).
Proof.
  assert (Hinc : ids_increase (perp_run requests)).
  { apply perp_serve_increase. intros i j p q _ Hp. discriminate. }
  split; [exact Hinc|].
  apply NoDup_alt. intros i j x Hi Hj.
  rewrite list_lookup_fmap in Hi, Hj.
  destruct (perp_run requests !! i) as [p|] eqn:Hp; [|discriminate].
  destruct (perp_run requests !! j) as [q|] eqn:Hq; [|discriminate].
  simpl in Hi, Hj. injection Hi as <-. injection Hj as Hj.
  destruct (Nat.lt_total i j) as [Hlt | [-> | Hlt]]; [|reflexivity|].
  - pose proof (Hinc i j p q Hlt Hp Hq). lia.
  - pose proof (Hinc j i q p Hlt Hq Hp). lia.
Qed.

Lemma api_perp_close_found (positions : list position) (i : nat)
    (p : position) :
  ids_increase positions -> positions !! i = Some p ->
  api_perp_close (Fin (inject_Z (p_id p))) positions
  = (true, delete i positions).
Proof.
  intros Hinc Hi. unfold api_perp_close.
  rewrite (find_ref_first _ positions i p Hi); [reflexivity | |].
  - now apply (has_id_own p p).
  - intros j q Hj Hq.
    destruct (has_id (Fin (inject_Z (p_id p))) q) eqn:E; [|exact E].
    apply has_id_own in E. pose proof (Hinc j i q p Hj Hq Hi). lia.
Qed.

Lemma api_perp_close_absent (id : num) (positions : list position) :
  Forall (fun q => has_id id q = false) positions ->
  api_perp_close id positions = (false, positions).
Proof.
  intros Hall. unfold api_perp_close.
  pose proof (find_ref_absent (has_id id) positions Hall) as F.
  unfold has_id in F. now rewrite F.
Qed.

(** Closing an open position by its id removes that position and no other;
    a second request to close it answers 'Position not found.' and changes
    nothing. *)
Theorem close_removes_the_position (positions : list position) (i : nat)
    (p : position) :
  ids_increase positions -> positions !! i = Some p ->
  let id := Fin (inject_Z (p_id p)) in
  api_perp_close id positions = (true, delete i positions)
  /\ Forall (fun q => p_id q <> p_id p) (delete i positions)
  /\ api_perp_close id (delete i positions) = (false, delete i positions).
Proof.
  intros Hinc Hi. cbv zeta.
  assert (Hrest : Forall (fun q => p_id q <> p_id p) (delete i positions)).
  { apply Forall_lookup. intros j q. rewrite list_lookup_delete.
    case_decide as Hj; intros Hq.
    - pose proof (Hinc j i q p Hj Hq Hi). lia.
    - assert (i < S j)%nat as Hlt by lia.
      pose proof (Hinc i (S j) p q Hlt Hi Hq). lia. }
  split; [now apply api_perp_close_found|]. split; [exact Hrest|].
  apply api_perp_close_absent.
  eapply Forall_impl; [exact Hrest|]. intros q Hq. simpl in Hq.
  destruct (has_id (Fin (inject_Z (p_id p))) q) eqn:E; [|reflexivity].
  apply has_id_own in E. contradiction.
Qed.

(** Opening a position and closing it again gives the positions back, so
    the next position that is opened gets the id of the closed one: an id
    names one position among the open ones, not among all there ever were. *)
Theorem open_then_close (now now' : Z) (asset side asset' side' : string)
    (leverage amount leverage' amount' : num) (positions : list position) :
  ids_increase positions ->
  let opened := api_perp_open now asset side leverage amount positions in
  let closed := api_perp_close (Fin (inject_Z (fst opened))) (snd opened) in
  closed = (true, positions)
  /\ fst (api_perp_open now' asset' side' leverage' amount' (snd closed))
     = fst opened.
Proof.
  intros Hinc. cbv zeta.
  set (o := api_perp_open now asset side leverage amount positions).
  assert (Hc : api_perp_close (Fin (inject_Z (fst o))) (snd o)
               = (true, positions)).
  { assert (Hi : snd o !! length positions
                 = Some {| p_id := fst o;
                           p_asset := if nonempty asset then asset else "TON";
                           p_side := if nonempty side then side else "long";
                           p_leverage := if JS.truthy leverage then leverage
                                         else Fin 1;
                           p_amount := JS.orZero amount;
                           p_pnl := JS.zero; p_openedAt := now |}).
    { subst o. simpl. rewrite lookup_app_r, Nat.sub_diag by lia. reflexivity. }
    pose proof (api_perp_close_found (snd o) (length positions) _
                  (api_perp_open_increase now asset side leverage amount
                     positions Hinc) Hi) as Hf.
    transitivity (true, delete (length positions) (snd o)); [exact Hf|].
    f_equal. subst o. simpl.
    rewrite delete_middle. apply app_nil_r. }
  rewrite Hc. split; reflexivity.
Qed.

(** ** The further properties on the scenarios *)


(** After her bet, the balance of alice is not negative. *)
Lemma balances_never_negative_witness :
  JS.lt (getBal (ledger after_bet) "alice") JS.zero = false.
Proof.
  apply (balances_never_negative (Fin (5 # 100)) (Fin 500) (Fin 3000)
           ["GIFTS"; "STICKERS"; "TON"] "s3cret" after_bet "alice").
  unfold after_bet, after_deposit, server.
  apply interleaved_request, interleaved_request, interleaved_initial.
Defined.

(** After the bet of alice there is one market, with id 1, and the next id
    is 2. *)
Lemma market_ids_are_positions_witness :
  (nextMarketId after_bet = Z.of_nat (length (markets after_bet)) + 1)%Z
  /\ forall i m, markets after_bet !! i = Some m -> m_id m = (Z.of_nat i + 1)%Z.
Proof.
  destruct (market_ids_are_positions (Fin (5 # 100)) (Fin 500) (Fin 3000)
              ["GIFTS"; "STICKERS"; "TON"] "s3cret" after_bet)
    as (H1 & H2 & _).
  - unfold after_bet, after_deposit, server.
    apply interleaved_request, interleaved_request, interleaved_initial.
  - split; [exact H1 | exact H2].
Defined.

(** The market of the scenario is consistent. *)
Lemma markets_are_consistent_witness : market_consistent staked_market.
Proof.
  apply (markets_are_consistent (Fin (5 # 100)) (Fin 500) (Fin 3000)
           ["GIFTS"; "STICKERS"; "TON"] "s3cret" after_bet staked_market).
  - unfold after_bet, after_deposit, server.
    apply interleaved_request, interleaved_request, interleaved_initial.
  - apply list_elem_of_lookup. exists 0%nat. vm_compute. reflexivity.
Defined.


(** In the same scenario, the usage after the withdrawal is the 490 TON of
    before plus the 10 TON, and within the daily limit. *)
Lemma usage_after_withdrawal_witness :
  let e := at_time 1000 None in
  let data := withdraw_request "alice" "EQalice" (Fin 10) in
  let s' := snd (api_wallet_withdraw (Fin (5 # 100)) (Fin 500) (Fin 3000)
                   e data near_daily_limit) in
  dailyUsed (getWithdrawUsage 1000 s' "alice")
  = JS.add (dailyUsed (getWithdrawUsage 1000 near_daily_limit "alice")) (Fin 10)
  /\ JS.gt (dailyUsed (getWithdrawUsage 1000 s' "alice")) (Fin 500) = false.
Proof.
  cbv zeta.
  assert (E : exists requestId feeTon netTon daily monthly,
             fst (api_wallet_withdraw (Fin (5 # 100)) (Fin 500) (Fin 3000)
                    (at_time 1000 None)
                    (withdraw_request "alice" "EQalice" (Fin 10))
                    near_daily_limit)
             = R_withdraw requestId feeTon netTon daily monthly).
  { do 5 eexists. vm_compute. reflexivity. }
  destruct E as (requestId & feeTon & netTon & daily & monthly & E).
  destruct (usage_after_withdrawal (Fin (5 # 100)) (Fin 500) (Fin 3000)
              (at_time 1000 None) (withdraw_request "alice" "EQalice" (Fin 10))
              near_daily_limit requestId feeTon netTon daily monthly E)
    as (_ & _ & Hsum & Hday & _); [vm_compute; reflexivity|].
  split; [exact Hsum | exact Hday].
Defined.


(** Two requests of the same millisecond share the id 'wd_3e8': completing
    'wd_3e8', any number of times, leaves the second one pending. *)
Lemma shadowed_request_never_completes_witness :
  withdrawQueue (run (Fin (5 # 100)) (Fin 500) (Fin 3000)
                   ["GIFTS"; "STICKERS"; "TON"] "s3cret"
                   [complete_3e8; complete_3e8] after_two_withdrawals)
    !! 1%nat = Some second_request
  /\ w_status second_request = Pending.
Proof.
  split; [|reflexivity].
  apply (shadowed_request_never_completes (Fin (5 # 100)) (Fin 500) (Fin 3000)
           ["GIFTS"; "STICKERS"; "TON"] "s3cret"
           [complete_3e8; complete_3e8] after_two_withdrawals 0%nat 1%nat
           first_request second_request).
  - lia.
  - vm_compute. reflexivity.
  - vm_compute. reflexivity.
  - reflexivity.
Defined.


(** The log of alice lists her two requests. *)
Lemma log_and_queue_agree_witness :
  map (fun w => (w_requestedAt w, w_amountTon w))
      (user_requests after_two_withdrawals "alice")
  = map (fun entry => (ts entry, le_amountTon entry))
        (user_log after_two_withdrawals "alice").
Proof.
  apply (log_and_queue_agree (Fin (5 # 100)) (Fin 500) (Fin 3000)
           ["GIFTS"; "STICKERS"; "TON"] "s3cret" after_two_withdrawals "alice").
  unfold after_two_withdrawals, after_one_withdrawal, after_deposit, server.
  apply interleaved_request, interleaved_request, interleaved_request,
    interleaved_initial.
Defined.

(** After the two withdrawals, the daily usage of alice is at most her
    monthly usage, also two days later. *)
Lemma daily_usage_within_monthly_witness :
  JS.le (dailyUsed (getWithdrawUsage (1000 + 2 * dayMs) after_two_withdrawals
                      "alice"))
        (monthlyUsed (getWithdrawUsage (1000 + 2 * dayMs) after_two_withdrawals
                        "alice")) = true.
Proof.
  apply (daily_usage_within_monthly (Fin (5 # 100)) (Fin 500) (Fin 3000)
           ["GIFTS"; "STICKERS"; "TON"] "s3cret" after_two_withdrawals
           (1000 + 2 * dayMs)%Z "alice").
  unfold after_two_withdrawals, after_one_withdrawal, after_deposit, server.
  apply interleaved_request, interleaved_request, interleaved_request,
    interleaved_initial.
Defined.

(** Closing position 2 of two leaves position 1, and closing it again
    answers 'Position not found.' *)
Lemma close_removes_the_position_witness :
  api_perp_close (Fin 2) two_positions = (true, delete 1%nat two_positions)
  /\ api_perp_close (Fin 2) (delete 1%nat two_positions)
     = (false, delete 1%nat two_positions).
Proof.
  destruct (close_removes_the_position two_positions 1%nat second_position)
    as (H1 & _ & H2).
  - apply perp_serve_increase. intros i j p q _ Hp. discriminate.
  - reflexivity.
  - split; [exact H1 | exact H2].
Defined.

(** With two positions open, the third gets id 3; once it is closed, the
    next one gets id 3 again. *)
Lemma open_then_close_witness :
  let opened := api_perp_open 9 "ETH" "long" (Fin 5) (Fin 1) two_positions in
  let closed := api_perp_close (Fin (inject_Z (fst opened))) (snd opened) in
  fst opened = 3%Z
  /\ closed = (true, two_positions)
  /\ fst (api_perp_open 12 "TON" "short" (Fin 1) (Fin 2) (snd closed)) = 3%Z.
Proof.
  cbv zeta.
  destruct (open_then_close 9 12 "ETH" "long" "TON" "short" (Fin 5) (Fin 1)
              (Fin 1) (Fin 2) two_positions) as (H1 & H2).
  - apply perp_serve_increase. intros i j p q _ Hp. discriminate.
  - split; [reflexivity|]. split; [exact H1 | exact H2].
Defined.
